(** * WebSocketServer: the render / publish / stream pipeline of
      easyvolcap/runners/websocket_server.py

    The development embeds the three loops of [WebSocketServer]
    ([render_loop], [send_loop], [recv_loop]) and the tail of [render]
    (lines 163-165) and states the properties of the streaming pipeline over
    that embedding.

    Numbers.  Normalised channel values, [exposure], [offset] and the readings
    of [time.perf_counter()] are rationals ([Q]); the float-to-byte conversion
    [.type(torch.uint8)] is truncation toward zero followed by the 8-bit
    wrap-around.  Module [Ieee] re-runs the worked example of the correction
    formula in IEEE-754 binary16/32/64 arithmetic.

    Tensors.  A rank-3 tensor is a list of rows, a row a list of pixels and a
    pixel the list of its channels, so that the slices [image[..., :3]] and
    [image[..., -1:]] and [flip(0)] read as they do in the source. *)

From Stdlib Require Import QArith Qround ZArith List Sorted Lia Lqa Bool.
From Stdlib Require Import Floats.SpecFloat.
From stdpp Require Import gmap list.

Local Open Scope Q_scope.

(** ** Tensors *)

Module Tensor.

Definition tensor (A : Type) : Type := list (list (list A)).

(** Element-wise application, as for every torch point-wise operator. *)
Definition pointwise {A B : Type} (f : A -> B) (t : tensor A) : tensor B :=
  map (map (map f)) t.

(** [t[..., :3]] on one pixel. *)
Definition first3 {A : Type} (px : list A) : list A := firstn 3 px.

(** [t[..., -1:]] on one pixel: the last channel, kept as a one-element
    slice (the empty slice on an empty pixel). *)
Definition last1 {A : Type} (px : list A) : list A :=
  skipn (length px - 1) px.

(** [t.flip(0)]: reverse the order of the rows. *)
Definition flip0 {A : Type} (t : tensor A) : tensor A := rev t.

(** [t[i][j][k]]. *)
Definition at3 {A : Type} (t : tensor A) (i j k : nat) : option A :=
  match nth_error t i with
  | Some row =>
      match nth_error row j with
      | Some px => nth_error px k
      | None => None
      end
  | None => None
  end.

(** [t.shape == (h, w, c)]. *)
Definition has_shape {A : Type} (h w c : nat) (t : tensor A) : Prop :=
  length t = h /\
  Forall (fun row => length row = w /\ Forall (fun px => length px = c) row) t.

(** Every element satisfies [P]. *)
Definition all_elems {A : Type} (P : A -> Prop) (t : tensor A) : Prop :=
  Forall (Forall (Forall P)) t.

End Tensor.

Import Tensor.

(** ** The tail of [render]: correction, clip, quantisation, flip *)

Module Render.

(** [x.clip(lo, hi)] on one value: [min(max(x, lo), hi)]. *)
Definition clip (lo hi x : Q) : Q :=
  if Qle_bool x lo then lo else if Qle_bool hi x then hi else x.

(** Truncation toward zero, the rounding of a float-to-integer cast. *)
Definition Qtrunc (x : Q) : Z := Z.quot (Qnum x) (Zpos (Qden x)).

(** [.type(torch.uint8)] on one value. *)
Definition to_uint8 (x : Q) : Z := (Qtrunc x) mod 256.

(** Line 164:
    [torch.cat([image[..., :3] * exposure + offset, image[..., -1:]], dim=-1)]. *)
Definition manual_correction (exposure offset : Q) (image : tensor Q) : tensor Q :=
  map (map (fun px =>
              map (fun c => c * exposure + offset) (first3 px) ++ last1 px))
      image.

(** Line 165: [(image.clip(0, 1) * 255).type(torch.uint8).flip(0)]. *)
Definition transform (image : tensor Q) : tensor Z :=
  flip0 (pointwise to_uint8
           (pointwise (fun c => c * 255) (pointwise (clip 0 1) image))).

(** The guard of line 163: [exposure != 1.0 or offset != 0.0]. *)
Definition needs_correction (exposure offset : Q) : bool :=
  negb (Qeq_bool exposure 1) || negb (Qeq_bool offset 0).

(** Lines 163-165 of [render], applied to the RGBA image produced by the
    forward pass and the visualizer. *)
Definition post_process (exposure offset : Q) (image : tensor Q) : tensor Z :=
  let image :=
    if needs_correction exposure offset
    then manual_correction exposure offset image
    else image in
  transform image.

(** The pipeline with the correction applied unconditionally, that is
    [outRGB = clip(inRGB * exposure + offset, 0, 1)] for every setting of
    [exposure] and [offset]; compared with [post_process] below. *)
Definition post_process_unguarded (exposure offset : Q) (image : tensor Q)
  : tensor Z :=
  transform (manual_correction exposure offset image).

(** One channel through clip, scale and cast. *)
Definition quantize (c : Q) : Z := to_uint8 (clip 0 1 c * 255).

(** The alpha plane of an RGBA tensor: channel 3 of every pixel. *)
Definition alpha_plane {A : Type} (t : tensor A) : list (list (option A)) :=
  map (map (fun px => nth_error px 3)) t.

End Render.

Import Render.

(** ** The worked example in IEEE-754 arithmetic

    [Stdlib.Floats.SpecFloat] gives the IEEE operations (round to nearest,
    ties to even) for any precision; the correction and the quantisation of
    one channel are repeated here in binary16, binary32 and binary64, the
    three dtypes the rendered tensor can have. *)

Module Ieee.

Local Open Scope Z_scope.

Record format := { prec : Z; emax : Z }.

Definition binary16 : format := {| prec := 11; emax := 16 |}.
Definition binary32 : format := {| prec := 24; emax := 128 |}.
Definition binary64 : format := {| prec := 53; emax := 1024 |}.

Definition of_Z (f : format) (z : Z) : spec_float :=
  binary_normalize (prec f) (emax f) z 0 false.

(** The float nearest to the decimal literal [n / d]. *)
Definition of_ratio (f : format) (n d : Z) : spec_float :=
  SFdiv (prec f) (emax f) (of_Z f n) (of_Z f d).

Definition fclip (lo hi x : spec_float) : spec_float :=
  if SFltb x lo then lo else if SFltb hi x then hi else x.

(** Float-to-integer cast: truncation toward zero. *)
Definition ftrunc (x : spec_float) : Z :=
  match x with
  | S754_finite s m e =>
      let a := if 0 <=? e then Z.pos m * 2 ^ e else Z.pos m / 2 ^ (- e) in
      if s then - a else a
  | _ => 0
  end.

(** [c * exposure + offset], each operation rounded. *)
Definition correct (f : format) (exposure offset c : spec_float) : spec_float :=
  SFadd (prec f) (emax f) (SFmul (prec f) (emax f) c exposure) offset.

(** [(c.clip(0, 1) * 255).type(torch.uint8)]. *)
Definition fquantize (f : format) (c : spec_float) : Z :=
  ftrunc (SFmul (prec f) (emax f) (fclip (of_Z f 0) (of_Z f 1) c) (of_Z f 255))
  mod 256.

End Ieee.

(** ** The throughput report (lines 120-127 and 140-147)

    [render_loop] and [send_loop] carry the same seven lines, which differ in
    the label of the log line only. *)

Module Fps.

(** The two loop variables [frame_cnt] and [prev_time]. *)
Record counter := { frame_cnt : Z; prev_time : Q }.

(** [frame_cnt = 0; prev_time = time.perf_counter()] before the loop. *)
Definition start (now : Q) : counter := {| frame_cnt := 0; prev_time := now |}.

(** [pass_time > 2.0]. *)
Definition window_passed (pass_time : Q) : bool := negb (Qle_bool pass_time 2).

(** One pass through the seven lines, [curr_time] being the value that
    [time.perf_counter()] returns; the result is the updated variables and
    the value logged, if any. *)
Definition tick (curr_time : Q) (s : counter) : counter * option Q :=
  let pass_time := curr_time - prev_time s in
  let frame_cnt := (frame_cnt s + 1)%Z in
  if window_passed pass_time
  then ({| frame_cnt := 0; prev_time := curr_time |},
        Some (inject_Z frame_cnt / pass_time))
  else ({| frame_cnt := frame_cnt; prev_time := prev_time s |}, None).

(** The loop over successive clock readings: the reports of every
    iteration, in order. *)
Fixpoint loop (s : counter) (clock : list Q) : list (option Q) :=
  match clock with
  | [] => []
  | t :: clock' => snd (tick t s) :: loop (fst (tick t s)) clock'
  end.

(** The loop variables after the iterations of [clock]. *)
Fixpoint after (s : counter) (clock : list Q) : counter :=
  match clock with
  | [] => s
  | t :: clock' => after (fst (tick t s)) clock'
  end.

(** No report in the iterations [from, from + len). *)
Definition silent (reports : list (option Q)) (from len : nat) : Prop :=
  forall k, (from <= k < from + len)%nat -> nth_error reports k = Some None.

End Fps.

(** ** The server: shared attributes, CUDA streams, and the three loops

    [render_loop] runs on the main thread, every accepted connection on the
    send port runs [send_loop] and every connection on the receive port runs
    [recv_loop].  Each loop is cut at its statements; a label of the
    transition system says which thread executes its next statement, or that
    the device runs the next operation queued on one of its streams.  A
    blocking statement ([with lock:], [stream.synchronize()]) has no
    transition while it would block. *)

Module Server.

Local Open Scope nat_scope.

(** What the file imports and calls but does not define. *)
Record externals := {
  camera_t : Type;                          (* viewer_utils.Camera *)
  batch_t : Type;                           (* the dotdict of Camera.to_batch *)
  to_batch : camera_t -> batch_t;
  (* lines 154-161: forward pass and visualizer, [generate_type(...)[0][0]] *)
  forward : batch_t -> tensor Q;
  (* TurboJPEG.encode(image, quality, pixel_format=TJPF_RGBA) *)
  jpeg_encode : tensor Z -> Z -> list Z
}.

Inductive thread :=
| Render_thread
| Send_conn (c : nat).

#[export] Instance thread_eq_dec : EqDecision thread.
Proof. solve_decision. Defined.

(** Work queued on a CUDA stream.  [Kernels g]: the kernels [render] launches
    for frame [g]; [Wait_event k]: what [wait_stream] queues, a wait for the
    first [k] operations of the other stream; [Memcpy_d2h g]: the copy that
    [image.to('cpu', non_blocking=True)] queues for frame [g]. *)
Inductive dev_op :=
| Kernels (g : nat)
| Wait_event (k : nat)
| Memcpy_d2h (g : nat).

(** A stream runs its operations in issue order; [ran] counts those done. *)
Record stream := { issued : list dev_op; ran : nat }.

Definition enqueue (op : dev_op) (s : stream) : stream :=
  {| issued := issued s ++ [op]; ran := ran s |}.

Definition advance (s : stream) : stream :=
  {| issued := issued s; ran := S (ran s) |}.

(** [stream.synchronize()] returns once everything issued has run. *)
Definition idle (s : stream) : bool := length (issued s) <=? ran s.

(** A frame: the tensor, tagged with the index of the [render] call that
    made it (0 for the placeholder of [__init__]).  The tag is not in the
    source; it names the frames. *)
Record frame := { gen : nat; pixels : tensor Z }.

Inductive render_pc :=
| RL_lock_camera      (* 112  with self.camera_lock: *)
| RL_to_batch         (* 113  batch = self.camera.to_batch() *)
| RL_unlock_camera    (*      end of the with block *)
| RL_render           (* 114  image = self.render(batch) *)
| RL_wait_stream      (* 115  self.stream.wait_stream(torch.cuda.current_stream()) *)
| RL_lock_image       (* 116-117  with torch.cuda.stream(self.stream): with self.image_lock: *)
| RL_publish          (* 118  self.image = image.to('cpu', non_blocking=True) *)
| RL_unlock_image     (*      end of the with blocks *)
| RL_fps.             (* 120-127 *)

Inductive send_pc :=
| SL_lock_image       (* 134  with self.image_lock: *)
| SL_synchronize      (* 135  self.stream.synchronize() *)
| SL_numpy            (* 136  image = self.image.numpy() *)
| SL_unlock_image     (*      end of the with block *)
| SL_encode           (* 137  image = self.jpeg.encode(...) *)
| SL_send             (* 138  websocket.send(image) *)
| SL_fps.             (* 140-147 *)

#[export] Instance render_pc_eq_dec : EqDecision render_pc.
Proof. solve_decision. Defined.

#[export] Instance send_pc_eq_dec : EqDecision send_pc.
Proof. solve_decision. Defined.

(** The statements inside [with self.image_lock:]. *)
Definition render_in_image_lock (pc : render_pc) : bool :=
  match pc with RL_publish | RL_unlock_image => true | _ => false end.

Definition send_in_image_lock (pc : send_pc) : bool :=
  match pc with SL_synchronize | SL_numpy | SL_unlock_image => true | _ => false end.

(** The statements inside [with self.camera_lock:]. *)
Definition render_in_camera_lock (pc : render_pc) : bool :=
  match pc with RL_to_batch | RL_unlock_camera => true | _ => false end.

Inductive log_line :=
| Render_fps (fps : Q)            (* log(f'Render FPS: {fps}') *)
| Send_fps (c : nat) (fps : Q).   (* log(f'Send FPS: {fps}') *)

Section Model.

Variable X : externals.

(** Locals of [render_loop]. *)
Record render_locals := {
  r_pc : render_pc;
  r_batch : option (batch_t X);
  r_image : option frame;           (* the cuda tensor returned by render *)
  r_fps : Fps.counter
}.

(** Locals of one [send_loop]; the source reuses the name [image] for the
    array and for the encoded bytes. *)
Record send_locals := {
  s_pc : send_pc;
  s_image : option frame;
  s_bytes : option (list Z);
  s_fps : Fps.counter
}.

(** One [recv_loop]: the messages the client has sent on the connection
    and that nothing has read. *)
Record recv_locals := { inbox : list (list Z) }.

Record state := {
  (* attributes of [self] *)
  camera : camera_t X;
  camera_lock : option thread;
  image_lock : option thread;
  image : frame;
  exposure : Q;
  offset : Q;
  jpeg_quality : Z;
  (* the device *)
  current_stream : stream;          (* torch.cuda.current_stream() *)
  copy_stream : stream;             (* self.stream *)
  (* the threads *)
  renderer : render_locals;
  senders : gmap nat send_locals;
  receivers : gmap nat recv_locals;
  (* history: frames rendered, references taken, messages sent, log *)
  rendered : nat;
  observed : list (nat * nat);          (* (connection, gen), newest first *)
  sent : list (nat * list Z);           (* (connection, payload), newest first *)
  logged : list log_line                (* newest first *)
}.

Definition set_camera_lock (v : option thread) (st : state) : state :=
  {| camera := camera st; camera_lock := v; image_lock := image_lock st;
     image := image st; exposure := exposure st; offset := offset st;
     jpeg_quality := jpeg_quality st; current_stream := current_stream st;
     copy_stream := copy_stream st; renderer := renderer st;
     senders := senders st; receivers := receivers st;
     rendered := rendered st; observed := observed st; sent := sent st;
     logged := logged st |}.

Definition set_image_lock (v : option thread) (st : state) : state :=
  {| camera := camera st; camera_lock := camera_lock st; image_lock := v;
     image := image st; exposure := exposure st; offset := offset st;
     jpeg_quality := jpeg_quality st; current_stream := current_stream st;
     copy_stream := copy_stream st; renderer := renderer st;
     senders := senders st; receivers := receivers st;
     rendered := rendered st; observed := observed st; sent := sent st;
     logged := logged st |}.

Definition set_image (v : frame) (st : state) : state :=
  {| camera := camera st; camera_lock := camera_lock st;
     image_lock := image_lock st;
     image := v; exposure := exposure st; offset := offset st;
     jpeg_quality := jpeg_quality st; current_stream := current_stream st;
     copy_stream := copy_stream st; renderer := renderer st;
     senders := senders st; receivers := receivers st;
     rendered := rendered st; observed := observed st; sent := sent st;
     logged := logged st |}.

Definition set_current_stream (v : stream) (st : state) : state :=
  {| camera := camera st; camera_lock := camera_lock st;
     image_lock := image_lock st;
     image := image st; exposure := exposure st; offset := offset st;
     jpeg_quality := jpeg_quality st; current_stream := v;
     copy_stream := copy_stream st; renderer := renderer st;
     senders := senders st; receivers := receivers st;
     rendered := rendered st; observed := observed st; sent := sent st;
     logged := logged st |}.

Definition set_copy_stream (v : stream) (st : state) : state :=
  {| camera := camera st; camera_lock := camera_lock st;
     image_lock := image_lock st;
     image := image st; exposure := exposure st; offset := offset st;
     jpeg_quality := jpeg_quality st; current_stream := current_stream st;
     copy_stream := v; renderer := renderer st;
     senders := senders st; receivers := receivers st;
     rendered := rendered st; observed := observed st; sent := sent st;
     logged := logged st |}.

Definition set_renderer (v : render_locals) (st : state) : state :=
  {| camera := camera st; camera_lock := camera_lock st;
     image_lock := image_lock st;
     image := image st; exposure := exposure st; offset := offset st;
     jpeg_quality := jpeg_quality st; current_stream := current_stream st;
     copy_stream := copy_stream st; renderer := v;
     senders := senders st; receivers := receivers st;
     rendered := rendered st; observed := observed st; sent := sent st;
     logged := logged st |}.

Definition set_senders (v : gmap nat send_locals) (st : state) : state :=
  {| camera := camera st; camera_lock := camera_lock st;
     image_lock := image_lock st;
     image := image st; exposure := exposure st; offset := offset st;
     jpeg_quality := jpeg_quality st; current_stream := current_stream st;
     copy_stream := copy_stream st; renderer := renderer st;
     senders := v; receivers := receivers st;
     rendered := rendered st; observed := observed st; sent := sent st;
     logged := logged st |}.

Definition set_receivers (v : gmap nat recv_locals) (st : state) : state :=
  {| camera := camera st; camera_lock := camera_lock st;
     image_lock := image_lock st;
     image := image st; exposure := exposure st; offset := offset st;
     jpeg_quality := jpeg_quality st; current_stream := current_stream st;
     copy_stream := copy_stream st; renderer := renderer st;
     senders := senders st; receivers := v;
     rendered := rendered st; observed := observed st; sent := sent st;
     logged := logged st |}.

Definition set_rendered (v : nat) (st : state) : state :=
  {| camera := camera st; camera_lock := camera_lock st;
     image_lock := image_lock st;
     image := image st; exposure := exposure st; offset := offset st;
     jpeg_quality := jpeg_quality st; current_stream := current_stream st;
     copy_stream := copy_stream st; renderer := renderer st;
     senders := senders st; receivers := receivers st;
     rendered := v; observed := observed st; sent := sent st;
     logged := logged st |}.

Definition set_observed (v : list (nat * nat)) (st : state) : state :=
  {| camera := camera st; camera_lock := camera_lock st;
     image_lock := image_lock st;
     image := image st; exposure := exposure st; offset := offset st;
     jpeg_quality := jpeg_quality st; current_stream := current_stream st;
     copy_stream := copy_stream st; renderer := renderer st;
     senders := senders st; receivers := receivers st;
     rendered := rendered st; observed := v; sent := sent st;
     logged := logged st |}.

Definition set_sent (v : list (nat * list Z)) (st : state) : state :=
  {| camera := camera st; camera_lock := camera_lock st;
     image_lock := image_lock st;
     image := image st; exposure := exposure st; offset := offset st;
     jpeg_quality := jpeg_quality st; current_stream := current_stream st;
     copy_stream := copy_stream st; renderer := renderer st;
     senders := senders st; receivers := receivers st;
     rendered := rendered st; observed := observed st; sent := v;
     logged := logged st |}.

Definition set_logged (v : list log_line) (st : state) : state :=
  {| camera := camera st; camera_lock := camera_lock st;
     image_lock := image_lock st;
     image := image st; exposure := exposure st; offset := offset st;
     jpeg_quality := jpeg_quality st; current_stream := current_stream st;
     copy_stream := copy_stream st; renderer := renderer st;
     senders := senders st; receivers := receivers st;
     rendered := rendered st; observed := observed st; sent := sent st;
     logged := v |}.

Definition render_goto (pc : render_pc) (r : render_locals) : render_locals :=
  {| r_pc := pc; r_batch := r_batch r; r_image := r_image r; r_fps := r_fps r |}.

Definition send_goto (pc : send_pc) (s : send_locals) : send_locals :=
  {| s_pc := pc; s_image := s_image s; s_bytes := s_bytes s; s_fps := s_fps s |}.

(** [render] (lines 153-166): the forward pass, then lines 163-165 with
    the server's [exposure] and [offset]. *)
Definition render (st : state) (batch : batch_t X) : tensor Z :=
  post_process (exposure st) (offset st) (forward X batch).

(** The next statement of [render_loop]; [now] is what
    [time.perf_counter()] returns if the statement reads the clock. *)
Definition render_step (now : Q) (st : state) : option state :=
  let r := renderer st in
  match r_pc r with
  | RL_lock_camera =>
      match camera_lock st with
      | None =>
          Some (set_renderer (render_goto RL_to_batch r)
                  (set_camera_lock (Some Render_thread) st))
      | Some _ => None
      end
  | RL_to_batch =>
      Some (set_renderer
              {| r_pc := RL_unlock_camera;
                 r_batch := Some (to_batch X (camera st));
                 r_image := r_image r; r_fps := r_fps r |} st)
  | RL_unlock_camera =>
      Some (set_renderer (render_goto RL_render r) (set_camera_lock None st))
  | RL_render =>
      match r_batch r with
      | Some batch =>
          let g := S (rendered st) in
          Some (set_renderer
                  {| r_pc := RL_wait_stream; r_batch := r_batch r;
                     r_image := Some {| gen := g; pixels := render st batch |};
                     r_fps := r_fps r |}
                  (set_current_stream (enqueue (Kernels g) (current_stream st))
                     (set_rendered g st)))
      | None => None
      end
  | RL_wait_stream =>
      Some (set_renderer (render_goto RL_lock_image r)
              (set_copy_stream
                 (enqueue (Wait_event (length (issued (current_stream st))))
                    (copy_stream st)) st))
  | RL_lock_image =>
      match image_lock st with
      | None =>
          Some (set_renderer (render_goto RL_publish r)
                  (set_image_lock (Some Render_thread) st))
      | Some _ => None
      end
  | RL_publish =>
      match r_image r with
      | Some f =>
          Some (set_renderer (render_goto RL_unlock_image r)
                  (set_image f
                     (set_copy_stream
                        (enqueue (Memcpy_d2h (gen f)) (copy_stream st)) st)))
      | None => None
      end
  | RL_unlock_image =>
      Some (set_renderer (render_goto RL_fps r) (set_image_lock None st))
  | RL_fps =>
      let tk := Fps.tick now (r_fps r) in
      Some (set_renderer
              {| r_pc := RL_lock_camera; r_batch := r_batch r;
                 r_image := r_image r; r_fps := fst tk |}
              (set_logged
                 (match snd tk with
                  | Some fps => Render_fps fps :: logged st
                  | None => logged st
                  end) st))
  end.

(** The next statement of the [send_loop] of connection [c]. *)
Definition send_step (c : nat) (now : Q) (st : state) : option state :=
  match senders st !! c with
  | None => None
  | Some s =>
      let continue pc := set_senders (<[c := send_goto pc s]> (senders st)) in
      match s_pc s with
      | SL_lock_image =>
          match image_lock st with
          | None =>
              Some (continue SL_synchronize
                      (set_image_lock (Some (Send_conn c)) st))
          | Some _ => None
          end
      | SL_synchronize =>
          if idle (copy_stream st) then Some (continue SL_numpy st) else None
      | SL_numpy =>
          Some (set_senders
                  (<[c := {| s_pc := SL_unlock_image;
                             s_image := Some (image st);
                             s_bytes := s_bytes s; s_fps := s_fps s |}]>
                     (senders st))
                  (set_observed ((c, gen (image st)) :: observed st) st))
      | SL_unlock_image =>
          Some (continue SL_encode (set_image_lock None st))
      | SL_encode =>
          match s_image s with
          | Some f =>
              Some (set_senders
                      (<[c := {| s_pc := SL_send; s_image := s_image s;
                                 s_bytes :=
                                   Some (jpeg_encode X (pixels f) (jpeg_quality st));
                                 s_fps := s_fps s |}]>
                         (senders st)) st)
          | None => None
          end
      | SL_send =>
          match s_bytes s with
          | Some payload =>
              Some (continue SL_fps (set_sent ((c, payload) :: sent st) st))
          | None => None
          end
      | SL_fps =>
          let tk := Fps.tick now (s_fps s) in
          Some (set_senders
                  (<[c := {| s_pc := SL_lock_image; s_image := s_image s;
                             s_bytes := s_bytes s; s_fps := fst tk |}]>
                     (senders st))
                  (set_logged
                     (match snd tk with
                      | Some fps => Send_fps c fps :: logged st
                      | None => logged st
                      end) st))
      end
  end.

(** A new connection on the send port: [send_loop] starts, lines 130-131. *)
Definition send_accept (c : nat) (now : Q) (st : state) : option state :=
  match senders st !! c with
  | Some _ => None
  | None =>
      Some (set_senders
              (<[c := {| s_pc := SL_lock_image; s_image := None;
                         s_bytes := None; s_fps := Fps.start now |}]>
                 (senders st)) st)
  end.

(** The [send_loop] of [c] ends with an exception; leaving a [with] block
    that way releases its lock. *)
Definition send_drop (c : nat) (st : state) : option state :=
  match senders st !! c with
  | None => None
  | Some s =>
      let st' := set_senders (delete c (senders st)) st in
      Some (if send_in_image_lock (s_pc s) then set_image_lock None st' else st')
  end.

Definition recv_accept (c : nat) (st : state) : option state :=
  match receivers st !! c with
  | Some _ => None
  | None => Some (set_receivers (<[c := {| inbox := [] |}]> (receivers st)) st)
  end.

(** The client of receive connection [c] sends message [m]. *)
Definition recv_message (c : nat) (m : list Z) (st : state) : option state :=
  match receivers st !! c with
  | None => None
  | Some r =>
      Some (set_receivers
              (<[c := {| inbox := inbox r ++ [m] |}]> (receivers st)) st)
  end.

(** One iteration of [recv_loop] (lines 150-151): [time.sleep(1)]. *)
Definition recv_step (c : nat) (st : state) : option state :=
  match receivers st !! c with
  | None => None
  | Some _ => Some st
  end.

Definition recv_drop (c : nat) (st : state) : option state :=
  match receivers st !! c with
  | None => None
  | Some _ => Some (set_receivers (delete c (receivers st)) st)
  end.

(** Whether the device can run [op] now: a [Wait_event k] waits for the
    first [k] operations of the other stream. *)
Definition runnable (other : stream) (op : dev_op) : bool :=
  match op with
  | Wait_event k => k <=? ran other
  | _ => true
  end.

(** The device runs the next operation of a stream. *)
Definition gpu_run (s other : stream) : option stream :=
  match issued s !! ran s with
  | Some op => if runnable other op then Some (advance s) else None
  | None => None
  end.

Inductive label :=
| Render_step (now : Q)
| Send_accept (c : nat) (now : Q)
| Send_step (c : nat) (now : Q)
| Send_drop (c : nat)
| Recv_accept (c : nat)
| Recv_message (c : nat) (m : list Z)
| Recv_step (c : nat)
| Recv_drop (c : nat)
| Gpu_current
| Gpu_copy.

Definition step (l : label) (st : state) : option state :=
  match l with
  | Render_step now => render_step now st
  | Send_accept c now => send_accept c now st
  | Send_step c now => send_step c now st
  | Send_drop c => send_drop c st
  | Recv_accept c => recv_accept c st
  | Recv_message c m => recv_message c m st
  | Recv_step c => recv_step c st
  | Recv_drop c => recv_drop c st
  | Gpu_current =>
      match gpu_run (current_stream st) (copy_stream st) with
      | Some s => Some (set_current_stream s st)
      | None => None
      end
  | Gpu_copy =>
      match gpu_run (copy_stream st) (current_stream st) with
      | Some s => Some (set_copy_stream s st)
      | None => None
      end
  end.

Fixpoint run (ls : list label) (st : state) : option state :=
  match ls with
  | [] => Some st
  | l :: ls' =>
      match step l st with
      | Some st' => run ls' st'
      | None => None
      end
  end.

(** [__init__] (lines 54-68) followed by the first two lines of
    [render_loop]; [placeholder] is the tensor [torch.randint] returns and
    [t0] the first clock reading. *)
Definition init (cam : camera_t X) (placeholder : tensor Z) (quality : Z)
           (t0 : Q) : state :=
  {| camera := cam; camera_lock := None; image_lock := None;
     image := {| gen := 0; pixels := placeholder |};
     exposure := 1.0%Q; offset := 0.0%Q; jpeg_quality := quality;
     current_stream := {| issued := []; ran := 0 |};
     copy_stream := {| issued := []; ran := 0 |};
     renderer := {| r_pc := RL_lock_camera; r_batch := None;
                    r_image := None; r_fps := Fps.start t0 |};
     senders := ∅; receivers := ∅;
     rendered := 0; observed := []; sent := []; logged := [] |}.

(** The states the server can be in. *)
Definition reachable (cam : camera_t X) (placeholder : tensor Z)
           (quality : Z) (t0 : Q) (st : state) : Prop :=
  exists ls, run ls (init cam placeholder quality t0) = Some st.

(** The generations connection [c] has read, oldest first. *)
Fixpoint gens_of (c : nat) (obs : list (nat * nat)) : list nat :=
  match obs with
  | [] => []
  | (c', g) :: obs' =>
      if decide (c' = c) then gens_of c obs' ++ [g] else gens_of c obs'
  end.

(** [torch.randint(0, 255, (h, w, 4), dtype=torch.uint8)]: any tensor of
    that shape with values in [0, 255). *)
Definition randint_0_255 (h w : nat) (t : tensor Z) : Prop :=
  has_shape h w 4 t /\ all_elems (fun v => (0 <= v < 255)%Z) t.

(** An [h] x [w] x 4 tensor of bytes. *)
Definition rgba_bytes (h w : nat) (t : tensor Z) : Prop :=
  has_shape h w 4 t /\ all_elems (fun v => (0 <= v <= 255)%Z) t.

(** [recv_loop] run for [n] iterations. *)
Fixpoint recv_loop (n : nat) (c : nat) (st : state) : option state :=
  match n with
  | 0 => Some st
  | S n' =>
      match recv_step c st with
      | Some st' => recv_loop n' c st'
      | None => None
      end
  end.

(** The image lock is held by nobody but a thread inside its [with
    self.image_lock:] block. *)
Definition image_lock_scope (st : state) : Prop :=
  (image_lock st = Some Render_thread <->
   render_in_image_lock (r_pc (renderer st)) = true) /\
  (forall c s, senders st !! c = Some s ->
     (image_lock st = Some (Send_conn c) <->
      send_in_image_lock (s_pc s) = true)).

(** A connection waiting in [stream.synchronize()] does not hold the
    image lock. *)
Definition lock_free_while_waiting (st : state) : Prop :=
  forall c s, senders st !! c = Some s -> s_pc s = SL_synchronize ->
              image_lock st <> Some (Send_conn c).

(** *** Invariants of the reachable states *)

(** Who holds the two locks: a lock is held by the thread inside its [with]
    block and by nobody else, and only a live connection holds one. *)
Definition locks_inv (st : state) : Prop :=
  image_lock_scope st /\
  (forall c, image_lock st = Some (Send_conn c) -> senders st !! c <> None) /\
  camera_lock st
  = (if render_in_camera_lock (r_pc (renderer st))
     then Some Render_thread else None).

(** Between [render] and the assignment of line 118 the local [image] is the
    frame rendered last. *)
Definition render_holds_frame (pc : render_pc) : bool :=
  match pc with
  | RL_wait_stream | RL_lock_image | RL_publish => true
  | _ => false
  end.

(** Between line 113 and line 114 the local [batch] is bound. *)
Definition render_holds_batch (pc : render_pc) : bool :=
  match pc with
  | RL_unlock_camera | RL_render => true
  | _ => false
  end.

(** Between line 136 and line 137 the local [image] is the array. *)
Definition send_holds_image (pc : send_pc) : bool :=
  match pc with
  | SL_unlock_image | SL_encode => true
  | _ => false
  end.

(** The locals a statement reads are bound when it runs. *)
Definition locals_inv (st : state) : Prop :=
  (render_holds_batch (r_pc (renderer st)) = true ->
   r_batch (renderer st) <> None) /\
  (render_holds_frame (r_pc (renderer st)) = true ->
   r_image (renderer st) <> None) /\
  (forall c s, senders st !! c = Some s ->
     (send_holds_image (s_pc s) = true -> s_image s <> None) /\
     (s_pc s = SL_send -> s_bytes s <> None)).

(** Generations: the published frame is never newer than the last rendered
    one, and the references taken so far, newest first, never increase. *)
Definition gens_inv (st : state) : Prop :=
  gen (image st) <= rendered st /\
  (render_holds_frame (r_pc (renderer st)) = true ->
   forall f, r_image (renderer st) = Some f -> gen f = rendered st) /\
  Forall (fun p => snd p <= gen (image st)) (observed st) /\
  StronglySorted (fun p q => snd q <= snd p) (observed st).

(** The kernels of frame [g] have been launched. *)
Definition kernels_issued (st : state) (g : nat) : Prop :=
  exists q, issued (current_stream st) !! q = Some (Kernels g).

(** Before position [p] the copy stream holds a wait for a prefix of the
    current stream that contains the kernels of frame [g]. *)
Definition wait_covers (st : state) (g p : nat) : Prop :=
  exists p' k q,
    p' < p /\ issued (copy_stream st) !! p' = Some (Wait_event k) /\
    q < k /\ issued (current_stream st) !! q = Some (Kernels g).

Definition streams_inv (st : state) : Prop :=
  ran (current_stream st) <= length (issued (current_stream st)) /\
  ran (copy_stream st) <= length (issued (copy_stream st)) /\
  (forall p g, issued (copy_stream st) !! p = Some (Memcpy_d2h g) ->
               wait_covers st g p) /\
  (forall p k, p < ran (copy_stream st) ->
               issued (copy_stream st) !! p = Some (Wait_event k) ->
               k <= ran (current_stream st)) /\
  (forall f, r_image (renderer st) = Some f ->
     match r_pc (renderer st) with
     | RL_wait_stream => kernels_issued st (gen f)
     | RL_lock_image | RL_publish =>
         wait_covers st (gen f) (length (issued (copy_stream st)))
     | _ => True
     end).

(** The published frame is the placeholder or a frame whose copy has been
    queued; and while a connection is at line 136, after its
    [stream.synchronize()] and inside the lock, every queued copy has run. *)
Definition copies_inv (st : state) : Prop :=
  (gen (image st) = 0 \/
   exists p, issued (copy_stream st) !! p = Some (Memcpy_d2h (gen (image st)))) /\
  (forall c s, senders st !! c = Some s -> s_pc s = SL_numpy ->
     forall p g, issued (copy_stream st) !! p = Some (Memcpy_d2h g) ->
                 p < ran (copy_stream st)).

(** The published tensor and the rendered one are RGBA byte images. *)
Definition frames_inv (h w : nat) (st : state) : Prop :=
  rgba_bytes h w (pixels (image st)) /\
  (forall f, r_image (renderer st) = Some f -> rgba_bytes h w (pixels f)).

(** *** What is rendered, published and sent *)

(** The tensor [render] returns for the camera of [__init__] while
    [exposure] and [offset] have their initial values. *)
Definition rendered_frame (cam : camera_t X) : tensor Z :=
  transform (forward X (to_batch X cam)).

(** A frame that [self.image] can hold: the placeholder, of generation 0, or
    a rendered frame. *)
Definition is_published (cam : camera_t X) (placeholder : tensor Z) (f : frame)
  : Prop :=
  (gen f = 0 /\ pixels f = placeholder) \/
  (0 < gen f /\ pixels f = rendered_frame cam).

(** The settings of [__init__] are still in place and every frame and every
    payload held or sent derives from them. *)
Definition content_inv (cam : camera_t X) (placeholder : tensor Z) (quality : Z)
           (st : state) : Prop :=
  camera st = cam /\
  exposure st = 1.0%Q /\ offset st = 0.0%Q /\ jpeg_quality st = quality /\
  is_published cam placeholder (image st) /\
  (forall b, r_batch (renderer st) = Some b -> b = to_batch X cam) /\
  (forall f, r_image (renderer st) = Some f ->
             0 < gen f /\ pixels f = rendered_frame cam) /\
  (forall c s, senders st !! c = Some s ->
     (forall f, s_image s = Some f -> is_published cam placeholder f) /\
     (forall bytes, s_bytes s = Some bytes ->
        exists f, is_published cam placeholder f /\
                  bytes = jpeg_encode X (pixels f) quality)) /\
  Forall (fun m => exists f, is_published cam placeholder f /\
                             snd m = jpeg_encode X (pixels f) quality)
         (sent st).

(** *** The contents of the two device queues *)

(** What the render loop queues on the copy stream for frame [g]. *)
Definition frame_ops (g : nat) : list dev_op := [Wait_event g; Memcpy_d2h g].

(** After line 115 and before line 118 the wait of the frame in hand is
    queued and its copy is not. *)
Definition render_waited (pc : render_pc) : bool :=
  match pc with
  | RL_lock_image | RL_publish => true
  | _ => false
  end.

Definition queues_inv (st : state) : Prop :=
  issued (current_stream st) = map Kernels (seq 1 (rendered st)) /\
  issued (copy_stream st)
  = concat (map frame_ops (seq 1 (gen (image st))))
    ++ (if render_waited (r_pc (renderer st))
        then [Wait_event (rendered st)] else []) /\
  rendered st
  = gen (image st)
    + (if render_holds_frame (r_pc (renderer st)) then 1 else 0) /\
  (render_holds_frame (r_pc (renderer st)) = true ->
   forall f, r_image (renderer st) = Some f -> gen f = rendered st).

(** The transitions of the send port for connection [c]. *)
Definition send_label (c : nat) (l : label) : Prop :=
  (exists t, l = Send_accept c t) \/ (exists t, l = Send_step c t) \/
  l = Send_drop c.

End Model.

Arguments camera {X} _.
Arguments camera_lock {X} _.
Arguments image_lock {X} _.
Arguments image {X} _.
Arguments exposure {X} _.
Arguments offset {X} _.
Arguments jpeg_quality {X} _.
Arguments current_stream {X} _.
Arguments copy_stream {X} _.
Arguments renderer {X} _.
Arguments senders {X} _.
Arguments receivers {X} _.
Arguments rendered {X} _.
Arguments observed {X} _.
Arguments sent {X} _.
Arguments logged {X} _.
Arguments r_pc {X} _.
Arguments r_batch {X} _.
Arguments r_image {X} _.
Arguments r_fps {X} _.
Arguments render {X} _ _.
Arguments render_step {X} _ _.
Arguments send_step {X} _ _ _.
Arguments send_accept {X} _ _ _.
Arguments send_drop {X} _ _.
Arguments recv_accept {X} _ _.
Arguments recv_message {X} _ _ _.
Arguments recv_step {X} _ _.
Arguments recv_drop {X} _ _.
Arguments recv_loop {X} _ _ _.
Arguments step {X} _ _.
Arguments run {X} _ _.
Arguments init {X} _ _ _ _.
Arguments reachable {X} _ _ _ _ _.
Arguments image_lock_scope {X} _.
Arguments lock_free_while_waiting {X} _.
Arguments locks_inv {X} _.
Arguments locals_inv {X} _.
Arguments gens_inv {X} _.
Arguments kernels_issued {X} _ _.
Arguments wait_covers {X} _ _ _.
Arguments streams_inv {X} _.
Arguments copies_inv {X} _.
Arguments rendered_frame {X} _.
Arguments is_published {X} _ _ _.
Arguments content_inv {X} _ _ _ _.
Arguments queues_inv {X} _.
Arguments frames_inv {X} _ _ _.
Arguments set_camera_lock {X} _ _.
Arguments set_image_lock {X} _ _.
Arguments set_image {X} _ _.
Arguments set_current_stream {X} _ _.
Arguments set_copy_stream {X} _ _.
Arguments set_renderer {X} _ _.
Arguments set_senders {X} _ _.
Arguments set_receivers {X} _ _.
Arguments set_rendered {X} _ _.
Arguments set_observed {X} _ _.
Arguments set_sent {X} _ _.
Arguments set_logged {X} _ _.
Arguments render_goto {X} _ _.

(** A one-pixel instance: a camera without parameters, a renderer that
    returns one RGBA pixel, and a codec that emits the red channels. *)
Definition tiny : externals :=
  {| camera_t := unit; batch_t := unit; to_batch := fun _ => tt;
     forward := fun _ => [[[0.4; 0.4; 0.4; 1]]]%Q;
     jpeg_encode := fun t _ => concat (map (map (fun px => nth 0 px 0%Z)) t) |}.

Definition tiny_init : state tiny := init (X := tiny) tt [[[7; 7; 7; 7]]]%Z 75 0%Q.

(** One full iteration of [render_loop], the device idle meanwhile. *)
Definition one_frame (now : Q) : list label :=
  repeat (Render_step now) 9.

(** The render loop publishes frame 1 and goes on to render frame 2 while
    connection 0 is accepted and enters its [with self.image_lock:] block;
    the device has run nothing yet. *)
Definition stalled_trace : list label :=
  one_frame 1 ++ [Send_accept 0 1; Send_step 0 1] ++ repeat (Render_step 3) 5.

(** The render loop up to line 118, not yet executed. *)
Definition before_publish_trace : list label := repeat (Render_step 1) 6.

(** One frame rendered, published and copied by the device. *)
Definition copied_trace : list label :=
  one_frame 1 ++ [Gpu_current; Gpu_copy; Gpu_copy].

(** Connection 0 reads the placeholder and sends it; then a frame is
    rendered and copied, and connection 0 reads again. *)
Definition two_reads_trace : list label :=
  [Send_accept 0 0] ++ repeat (Send_step 0 0.5) 7 ++ copied_trace
  ++ repeat (Send_step 0 2) 3.

(** A client connects to the receive port and sends a message. *)
Definition recv_trace : list label := [Recv_accept 5; Recv_message 5 [1; 2; 3]%Z].

(** As [two_reads_trace], stopped when connection 0 is about to take the
    reference for the second time. *)
Definition second_read_trace : list label :=
  [Send_accept 0 0] ++ repeat (Send_step 0 0.5) 7 ++ copied_trace
  ++ repeat (Send_step 0 2) 2.

(** Connection 0 reads, encodes and sends the first rendered frame. *)
Definition sent_trace : list label :=
  copied_trace ++ [Send_accept 0 2] ++ repeat (Send_step 0 2) 6.

End Server.

(** * Properties of the tail of [render] *)

Section TensorFacts.

Context {A B : Type}.

Lemma at3_pointwise (f : A -> B) (t : tensor A) (i j k : nat) :
  at3 (pointwise f t) i j k = option_map f (at3 t i j k).
Proof.
  unfold at3, pointwise. rewrite nth_error_map.
  destruct (nth_error t i) as [row|]; simpl; [|reflexivity].
  rewrite nth_error_map.
  destruct (nth_error row j) as [px|]; simpl; [|reflexivity].
  apply nth_error_map.
Qed.

Lemma at3_flip0 (t : tensor A) (i j k : nat) :
  (i < length t)%nat ->
  at3 (flip0 t) (length t - 1 - i) j k = at3 t i j k.
Proof.
  intros Hi. unfold at3, flip0. rewrite nth_error_rev.
  destruct (Nat.ltb_spec (length t - 1 - i) (length t)) as [_|Hge]; [|lia].
  replace (length t - S (length t - 1 - i))%nat with i by lia.
  reflexivity.
Qed.

Lemma has_shape_pointwise (f : A -> B) (h w c : nat) (t : tensor A) :
  has_shape h w c t -> has_shape h w c (pointwise f t).
Proof.
  unfold has_shape, pointwise. intros [Hh Hrows]. split.
  - now rewrite length_map.
  - apply Forall_map. eapply List.Forall_impl; [|exact Hrows].
    intros row [Hw Hpx]. split; [now rewrite length_map|].
    apply Forall_map. eapply List.Forall_impl; [|exact Hpx].
    intros px Hc. now rewrite length_map.
Qed.

Lemma has_shape_flip0 (h w c : nat) (t : tensor A) :
  has_shape h w c t -> has_shape h w c (flip0 t).
Proof.
  unfold has_shape, flip0. intros [Hh Hrows]. split.
  - now rewrite length_rev.
  - now apply Forall_rev.
Qed.

Lemma all_elems_pointwise (f : A -> B) (P : B -> Prop) (t : tensor A) :
  (forall a, P (f a)) -> all_elems P (pointwise f t).
Proof.
  intros HP. unfold all_elems, pointwise.
  apply Forall_map, Forall_forall. intros row _.
  apply Forall_map, Forall_forall. intros px _.
  apply Forall_map, Forall_forall. intros a _. apply HP.
Qed.

Lemma all_elems_flip0 (P : A -> Prop) (t : tensor A) :
  all_elems P t -> all_elems P (flip0 t).
Proof. apply Forall_rev. Qed.

End TensorFacts.

Section RenderFacts.

Local Open Scope Q_scope.

Lemma clip_unit_range (x : Q) : 0 <= clip 0 1 x <= 1.
Proof.
  unfold clip.
  destruct (Qle_bool x 0) eqn:E0; [lra|].
  destruct (Qle_bool 1 x) eqn:E1; [lra|].
  assert (~ x <= 0) by (rewrite <- Qle_bool_iff, E0; discriminate).
  assert (~ 1 <= x) by (rewrite <- Qle_bool_iff, E1; discriminate).
  lra.
Qed.

Lemma clip_unit_id (x : Q) : 0 <= x <= 1 -> clip 0 1 x == x.
Proof.
  intros Hx. unfold clip.
  destruct (Qle_bool x 0) eqn:E0.
  - apply Qle_bool_iff in E0. lra.
  - destruct (Qle_bool 1 x) eqn:E1; [|reflexivity].
    apply Qle_bool_iff in E1. lra.
Qed.

Lemma clip_comp (x y : Q) : x == y -> clip 0 1 x == clip 0 1 y.
Proof.
  intros E. unfold clip.
  rewrite (Qleb_comp x y E 0 0 (Qeq_refl 0)).
  rewrite (Qleb_comp 1 1 (Qeq_refl 1) x y E).
  destruct (Qle_bool y 0); [reflexivity|].
  destruct (Qle_bool 1 y); [reflexivity|exact E].
Qed.

Lemma Qtrunc_nonneg (x : Q) : 0 <= x -> Qtrunc x = Qfloor x.
Proof.
  destruct x as [n d]. unfold Qle, Qtrunc, Qfloor. simpl. intros Hn.
  apply Z.quot_div_nonneg; lia.
Qed.

(** A value of [0, 255] is cast without wrap-around. *)
Lemma to_uint8_in_range (x : Q) :
  0 <= x <= 255 -> to_uint8 x = Qfloor x /\ (0 <= Qfloor x <= 255)%Z.
Proof.
  intros [H0 H255]. unfold to_uint8. rewrite Qtrunc_nonneg by exact H0.
  assert (Hlo : (0 <= Qfloor x)%Z) by (apply (Qfloor_resp_le 0 x); exact H0).
  assert (Hhi : (Qfloor x <= 255)%Z) by (apply (Qfloor_resp_le x 255); exact H255).
  split; [apply Z.mod_small|]; lia.
Qed.

Lemma to_uint8_comp (x y : Q) : 0 <= x <= 255 -> x == y -> to_uint8 x = to_uint8 y.
Proof.
  intros Hx E.
  destruct (to_uint8_in_range x Hx) as [-> _].
  destruct (to_uint8_in_range y) as [-> _]; [rewrite <- E; exact Hx|].
  now apply Qfloor_comp.
Qed.

Lemma quantize_floor (c : Q) :
  quantize c = Qfloor (clip 0 1 c * 255) /\ (0 <= quantize c <= 255)%Z.
Proof.
  unfold quantize. pose proof (clip_unit_range c) as Hc.
  destruct (to_uint8_in_range (clip 0 1 c * 255)) as [E R]; [lra|].
  rewrite E. auto.
Qed.

Lemma quantize_comp (x y : Q) : x == y -> quantize x = quantize y.
Proof.
  intros E. unfold quantize. pose proof (clip_unit_range x) as Hx.
  apply to_uint8_comp; [lra|]. now rewrite (clip_comp x y E).
Qed.

(** Line 165 is the rows reversed and every channel quantised. *)
Lemma transform_quantize (image : tensor Q) :
  transform image = flip0 (pointwise quantize image).
Proof.
  unfold transform, pointwise, quantize. f_equal.
  rewrite !map_map. apply map_ext. intros row.
  rewrite !map_map. apply map_ext. intros px.
  rewrite !map_map. reflexivity.
Qed.

Lemma transform_at3 (image : tensor Q) (i j k : nat) :
  (i < length image)%nat ->
  at3 (transform image) (length image - 1 - i) j k
  = option_map quantize (at3 image i j k).
Proof.
  intros Hi. rewrite transform_quantize.
  replace (length image) with (length (pointwise quantize image))
    by (unfold pointwise; apply length_map).
  rewrite at3_flip0 by (unfold pointwise; rewrite length_map; exact Hi).
  apply at3_pointwise.
Qed.

Lemma at3_length {A : Type} (t : tensor A) (i j k : nat) (a : A) :
  at3 t i j k = Some a -> (i < length t)%nat.
Proof.
  unfold at3. intros H. apply nth_error_Some.
  destruct (nth_error t i); [discriminate|discriminate].
Qed.

(** A colour channel of the corrected image. *)
Lemma manual_correction_rgb (exposure offset : Q) (image : tensor Q)
      (i j k : nat) (c : Q) :
  at3 image i j k = Some c -> (k < 3)%nat ->
  at3 (manual_correction exposure offset image) i j k
  = Some (c * exposure + offset).
Proof.
  unfold at3, manual_correction. intros H Hk.
  rewrite nth_error_map.
  destruct (nth_error image i) as [row|]; simpl in *; [|discriminate].
  rewrite nth_error_map.
  destruct (nth_error row j) as [px|]; simpl in *; [|discriminate].
  assert (Hlen : (k < length px)%nat) by (apply nth_error_Some; congruence).
  unfold first3. rewrite nth_error_app1.
  - rewrite nth_error_map, nth_error_firstn.
    destruct (Nat.ltb_spec k 3); [|lia]. now rewrite H.
  - rewrite length_map, length_firstn. lia.
Qed.

(** The corrected pixel of an RGBA pixel. *)
Lemma manual_correction_rgba (exposure offset r g b a : Q) :
  map (fun c => c * exposure + offset) (first3 [r; g; b; a]) ++ last1 [r; g; b; a]
  = [r * exposure + offset; g * exposure + offset; b * exposure + offset; a].
Proof. reflexivity. Qed.

Lemma needs_correction_default (exposure offset : Q) :
  exposure == 1 -> offset == 0 -> needs_correction exposure offset = false.
Proof.
  intros He Ho. unfold needs_correction.
  now rewrite (Qeq_eq_bool _ _ He), (Qeq_eq_bool _ _ Ho).
Qed.

Lemma rgba_pixel {A : Type} (px : list A) :
  length px = 4%nat -> exists r g b a, px = [r; g; b; a].
Proof.
  destruct px as [|r [|g [|b [|a [|e px]]]]]; simpl; intros H; try discriminate.
  now exists r, g, b, a.
Qed.

(** [post_process] pixel by pixel. *)
Lemma post_process_pixels (exposure offset : Q) (image : tensor Q) :
  post_process exposure offset image
  = rev (map (map (fun px =>
                     map quantize
                         (if needs_correction exposure offset
                          then map (fun c => c * exposure + offset) (first3 px)
                               ++ last1 px
                          else px))) image).
Proof.
  unfold post_process. rewrite transform_quantize. unfold flip0, pointwise.
  f_equal. destruct (needs_correction exposure offset).
  - unfold manual_correction. rewrite map_map. apply map_ext. intros row.
    rewrite map_map. reflexivity.
  - reflexivity.
Qed.

End RenderFacts.

Section RenderTheorems.

Local Open Scope Q_scope.

(** C3.  With [exposure = 1.5] and [offset = 0.1], a colour channel of value
    0.4 is corrected and clipped to 0.7 and cast to the byte 178; the
    output is the flip of the corrected, quantised image, so the byte of
    row [i] is found in row [H - 1 - i]. *)
Theorem correction_formula_example (image : tensor Q) (i j k : nat) (c : Q) :
  at3 image i j k = Some c -> c == 0.4 -> (k < 3)%nat ->
  clip 0 1 (c * 1.5 + 0.1) == 0.7 /\
  at3 (pointwise quantize (manual_correction 1.5 0.1 image)) i j k = Some 178%Z /\
  post_process 1.5 0.1 image
  = flip0 (pointwise quantize (manual_correction 1.5 0.1 image)) /\
  at3 (post_process 1.5 0.1 image) (length image - 1 - i) j k = Some 178%Z.
Proof.
  intros Hc E Hk.
  assert (Hv : c * 1.5 + 0.1 == 0.7) by (rewrite E; reflexivity).
  assert (Hq : quantize (c * 1.5 + 0.1) = 178%Z)
    by (rewrite (quantize_comp _ _ Hv); reflexivity).
  assert (Hm := manual_correction_rgb 1.5 0.1 image i j k c Hc Hk).
  assert (Hp : post_process 1.5 0.1 image
               = flip0 (pointwise quantize (manual_correction 1.5 0.1 image)))
    by (unfold post_process; simpl; apply transform_quantize).
  repeat split.
  - rewrite (clip_comp _ _ Hv). reflexivity.
  - rewrite at3_pointwise, Hm. simpl. now rewrite Hq.
  - exact Hp.
  - unfold post_process. simpl.
    replace (length image) with (length (manual_correction 1.5 0.1 image))
      by (unfold manual_correction; apply length_map).
    rewrite transform_at3.
    + rewrite Hm. simpl. now rewrite Hq.
    + unfold manual_correction. rewrite length_map.
      exact (at3_length image i j k c Hc).
Qed.

Lemma correction_formula_example_witness :
  at3 (post_process 1.5 0.1 [[[0.4; 0.4; 0.4; 1]]; [[0; 1; 2; 0.5]]]) 1 0 0
  = Some 178%Z.
Proof.
  apply (correction_formula_example
           [[[0.4; 0.4; 0.4; 1]]; [[0; 1; 2; 0.5]]] 0 0 0 0.4).
  - reflexivity.
  - reflexivity.
  - lia.
Defined.

(** C4.  With [exposure = 1.0] and [offset = 0.0] the output is the flip of
    the clipped, quantised input, and skipping the correction gives what
    applying it to the RGBA image would give. *)
Theorem default_correction_noop (exposure offset : Q) (image : tensor Q) :
  exposure == 1.0 -> offset == 0.0 ->
  post_process exposure offset image = flip0 (pointwise quantize image) /\
  (Forall (Forall (fun px => length px = 4%nat)) image ->
   post_process exposure offset image
   = post_process_unguarded exposure offset image).
Proof.
  intros He Ho.
  assert (Hn : needs_correction exposure offset = false)
    by (apply needs_correction_default; [rewrite He|rewrite Ho]; reflexivity).
  split.
  - unfold post_process. rewrite Hn. apply transform_quantize.
  - intros Hrgba. unfold post_process, post_process_unguarded. rewrite Hn.
    rewrite !transform_quantize. unfold flip0, pointwise, manual_correction.
    f_equal. rewrite map_map.
    induction Hrgba as [|row rows Hrow _ IH]; simpl; [reflexivity|].
    f_equal; [|exact IH]. rewrite map_map. clear IH.
    induction Hrow as [|px pxs Hpx _ IH]; simpl; [reflexivity|].
    f_equal; [|exact IH]. clear IH.
    destruct (rgba_pixel px Hpx) as (r & g & b & a & ->).
    rewrite manual_correction_rgba. simpl.
    assert (Hid : forall c, c * exposure + offset == c)
      by (intros c; rewrite He, Ho; unfold Qeq; simpl; lia).
    now rewrite !(quantize_comp _ _ (Hid _)).
Qed.

Lemma default_correction_noop_witness :
  post_process 1.0 0.0 [[[0.4; 2; -1; 1]]; [[0; 1; 0.5; 0.5]]]
  = flip0 (pointwise quantize [[[0.4; 2; -1; 1]]; [[0; 1; 0.5; 0.5]]]) /\
  post_process 1.0 0.0 [[[0.4; 2; -1; 1]]; [[0; 1; 0.5; 0.5]]]
  = post_process_unguarded 1.0 0.0 [[[0.4; 2; -1; 1]]; [[0; 1; 0.5; 0.5]]].
Proof.
  destruct (default_correction_noop 1.0 0.0
              [[[0.4; 2; -1; 1]]; [[0; 1; 0.5; 0.5]]]) as [H1 H2].
  - reflexivity.
  - reflexivity.
  - split; [exact H1|]. apply H2.
    repeat constructor.
Defined.

(** C5.  On an RGBA image whose alpha values lie in [0, 1], whatever
    [exposure] and [offset] are, the alpha plane of the output is the
    flipped, quantised alpha plane of the input. *)
Theorem alpha_passthrough (exposure offset : Q) (image : tensor Q) :
  Forall (Forall (fun px =>
                    length px = 4%nat /\
                    forall a, nth_error px 3 = Some a -> 0 <= a <= 1)) image ->
  alpha_plane (post_process exposure offset image)
  = rev (map (map (option_map (fun a => to_uint8 (a * 255))))
             (alpha_plane image)).
Proof.
  intros Hrgba. rewrite post_process_pixels. unfold alpha_plane.
  rewrite map_rev. f_equal. rewrite !map_map.
  induction Hrgba as [|row rows Hrow _ IH]; simpl; [reflexivity|].
  f_equal; [|exact IH]. rewrite !map_map. clear IH.
  induction Hrow as [|px pxs [Hlen Ha] _ IH]; simpl; [reflexivity|].
  f_equal; [|exact IH]. clear IH.
  destruct (rgba_pixel px Hlen) as (r & g & b & a & ->).
  specialize (Ha a eq_refl).
  assert (Hq : quantize a = to_uint8 (a * 255)).
  { unfold quantize. pose proof (clip_unit_range a) as Hc.
    apply to_uint8_comp; [lra|]. now rewrite (clip_unit_id a Ha). }
  destruct (needs_correction exposure offset).
  - rewrite manual_correction_rgba. simpl. now rewrite Hq.
  - simpl. now rewrite Hq.
Qed.

Lemma alpha_passthrough_witness :
  alpha_plane (post_process 3 (-0.5) [[[0.4; 2; -1; 1]]; [[0; 1; 0.5; 0.5]]])
  = [[Some 127%Z]; [Some 255%Z]].
Proof.
  apply (alpha_passthrough 3 (-0.5) [[[0.4; 2; -1; 1]]; [[0; 1; 0.5; 0.5]]]).
  repeat (apply List.Forall_cons || apply List.Forall_nil);
    (split; [reflexivity | intros a [= <-]; lra]).
Defined.

End RenderTheorems.

(** * The worked example under IEEE rounding *)

(** In half, single and double precision alike the corrected value is the
    float next to 0.7 and its byte is 178. *)
Lemma ieee_correction_example :
  Forall (fun f => Ieee.fquantize f
                     (Ieee.correct f (Ieee.of_ratio f 15 10) (Ieee.of_ratio f 1 10)
                        (Ieee.of_ratio f 4 10)) = 178%Z)
         [Ieee.binary16; Ieee.binary32; Ieee.binary64].
Proof.
  apply List.Forall_cons; [vm_compute; reflexivity|].
  apply List.Forall_cons; [vm_compute; reflexivity|].
  apply List.Forall_cons; [vm_compute; reflexivity|].
  apply List.Forall_nil.
Qed.

(** * Properties of the throughput report *)

Section FpsFacts.

Local Open Scope Q_scope.
Import Fps.

Lemma window_passed_iff (x : Q) : window_passed x = true <-> 2 < x.
Proof.
  unfold window_passed. destruct (Qle_bool x 2) eqn:E; simpl.
  - apply Qle_bool_iff in E. split; [discriminate|]. intros H. lra.
  - split; [intros _|reflexivity].
    apply Qnot_le_lt. intros H. apply Qle_bool_iff in H. congruence.
Qed.

(** One pass: the report, and the loop variables afterwards. *)
Lemma tick_report (t : Q) (s : counter) :
  snd (tick t s)
  = (if window_passed (t - prev_time s)
     then Some (inject_Z (frame_cnt s + 1) / (t - prev_time s))
     else None).
Proof. unfold tick. now destruct (window_passed (t - prev_time s)). Qed.

Lemma tick_state (t : Q) (s : counter) :
  fst (tick t s)
  = (if window_passed (t - prev_time s)
     then {| frame_cnt := 0; prev_time := t |}
     else {| frame_cnt := frame_cnt s + 1; prev_time := prev_time s |}).
Proof. unfold tick. now destruct (window_passed (t - prev_time s)). Qed.

Lemma tick_silent (t : Q) (s : counter) :
  snd (tick t s) = None ->
  fst (tick t s) = {| frame_cnt := frame_cnt s + 1; prev_time := prev_time s |}.
Proof.
  rewrite tick_report, tick_state.
  now destruct (window_passed (t - prev_time s)).
Qed.

Lemma tick_reported (t : Q) (s : counter) (f : Q) :
  snd (tick t s) = Some f ->
  fst (tick t s) = {| frame_cnt := 0; prev_time := t |}.
Proof.
  rewrite tick_report, tick_state.
  now destruct (window_passed (t - prev_time s)).
Qed.

Lemma length_loop (s : counter) (clock : list Q) :
  length (loop s clock) = length clock.
Proof.
  revert s. induction clock as [|t clock IH]; intros s; simpl; [reflexivity|].
  now rewrite IH.
Qed.

(** With no report in the first [i] iterations, [frame_cnt] has grown by
    [i] and [prev_time] is unchanged, so iteration [i] reports from these. *)
Lemma loop_first_window (clock : list Q) (s : counter) (i : nat) (t : Q) :
  nth_error clock i = Some t ->
  silent (loop s clock) 0 i ->
  nth_error (loop s clock) i
  = Some (snd (tick t {| frame_cnt := frame_cnt s + Z.of_nat i;
                         prev_time := prev_time s |})).
Proof.
  revert s i. induction clock as [|t0 clock IH]; intros s i Ht Hs.
  - destruct i; discriminate.
  - destruct i as [|i]; simpl in *.
    + injection Ht as ->. rewrite Z.add_0_r. now destruct s.
    + assert (H0 : snd (tick t0 s) = None).
      { specialize (Hs 0%nat ltac:(lia)). simpl in Hs. congruence. }
      rewrite (IH (fst (tick t0 s)) i Ht).
      * rewrite (tick_silent _ _ H0). simpl. do 4 f_equal. lia.
      * intros k Hk. apply (Hs (S k)). lia.
Qed.

(** After a report in iteration [j] the loop goes on as a fresh loop
    started at the clock reading of [j]. *)
Lemma loop_after_report (clock : list Q) (s : counter) (j k : nat) (tj f : Q) :
  nth_error clock j = Some tj ->
  nth_error (loop s clock) j = Some (Some f) ->
  nth_error (loop s clock) (S j + k)
  = nth_error (loop (start tj) (skipn (S j) clock)) k.
Proof.
  revert s j. induction clock as [|t0 clock IH]; intros s j Ht Hr.
  - destruct j; discriminate.
  - destruct j as [|j]; simpl in *.
    + injection Ht as ->. injection Hr as Hr.
      now rewrite (tick_reported _ _ _ Hr).
    + apply (IH _ _ Ht Hr).
Qed.

End FpsFacts.

Section FpsTheorems.

Local Open Scope Q_scope.
Import Fps.

(** C6.  In a loop started at clock reading [t0], iteration [i] (clock
    reading [t]) reports if and only if more than 2.0 seconds have passed
    since the last report (since [t0] if there was none), and the value
    reported is the number of iterations since then divided by that time:
    counter and window restart at every report. *)
Theorem fps_report_cadence (t0 : Q) (clock : list Q) (i : nat) (t : Q) :
  nth_error clock i = Some t ->
  exists r,
    nth_error (loop (start t0) clock) i = Some r /\
    (silent (loop (start t0) clock) 0 i ->
     (r <> None <-> 2 < t - t0) /\
     (forall f, r = Some f -> f == inject_Z (Z.of_nat (i + 1)) / (t - t0))) /\
    (forall j tj fj,
       (j < i)%nat ->
       nth_error clock j = Some tj ->
       nth_error (loop (start t0) clock) j = Some (Some fj) ->
       silent (loop (start t0) clock) (S j) (i - S j) ->
       (r <> None <-> 2 < t - tj) /\
       (forall f, r = Some f -> f == inject_Z (Z.of_nat (i - j)) / (t - tj))).
Proof.
  intros Ht.
  assert (Hi : (i < length (loop (start t0) clock))%nat)
    by (rewrite length_loop; apply nth_error_Some; congruence).
  destruct (nth_error (loop (start t0) clock) i) as [r|] eqn:Er;
    [|apply nth_error_None in Er; lia].
  exists r. split; [reflexivity|]. split.
  - intros Hs. rewrite (loop_first_window clock (start t0) i t Ht Hs) in Er.
    injection Er as <-. rewrite tick_report. simpl.
    destruct (window_passed (t - t0)) eqn:Ew.
    + apply window_passed_iff in Ew. split.
      * split; [intros _; exact Ew|discriminate].
      * intros f [= <-]. replace (0 + Z.of_nat i + 1)%Z with (Z.of_nat (i + 1)) by lia.
        reflexivity.
    + split.
      * split; [congruence|]. intros H. apply window_passed_iff in H. congruence.
      * discriminate.
  - intros j tj fj Hj Htj Hrj Hs.
    assert (Hk : nth_error (skipn (S j) clock) (i - S j) = Some t).
    { rewrite nth_error_skipn. replace (S j + (i - S j))%nat with i by lia.
      exact Ht. }
    pose proof (loop_after_report clock (start t0) j (i - S j) tj fj Htj Hrj) as Hshift.
    replace (S j + (i - S j))%nat with i in Hshift by lia.
    rewrite Er in Hshift.
    rewrite (loop_first_window _ (start tj) (i - S j) t Hk) in Hshift.
    + injection Hshift as ->. rewrite tick_report. simpl.
      destruct (window_passed (t - tj)) eqn:Ew.
      * apply window_passed_iff in Ew. split.
        -- split; [intros _; exact Ew|discriminate].
        -- intros f [= <-].
           replace (0 + Z.of_nat (i - S j) + 1)%Z with (Z.of_nat (i - j)) by lia.
           reflexivity.
      * split.
        -- split; [congruence|]. intros H. apply window_passed_iff in H. congruence.
        -- discriminate.
    + intros k Hk'.
      rewrite <- (loop_after_report clock (start t0) j k tj fj Htj Hrj).
      apply Hs. lia.
Qed.

Lemma fps_report_cadence_witness :
  exists r,
    nth_error (loop (start 10) [10.5; 11; 12.5; 13; 14; 15]) 5 = Some r /\
    forall f, r = Some f -> f == inject_Z (Z.of_nat (5 - 2)) / (15 - 12.5).
Proof.
  destruct (fps_report_cadence 10 [10.5; 11; 12.5; 13; 14; 15] 5 15 eq_refl)
    as (r & Hr & _ & Hw).
  exists r. split; [exact Hr|].
  apply (Hw 2%nat 12.5 (30 # 25)).
  - lia.
  - reflexivity.
  - reflexivity.
  - intros k Hk. assert (k = 3%nat \/ k = 4%nat) as [-> | ->] by lia; reflexivity.
Defined.

End FpsTheorems.

(** * The rendered frame is an RGBA byte image *)

Section RenderShape.

Local Open Scope Q_scope.

Lemma manual_correction_shape (exposure offset : Q) (h w : nat) (image : tensor Q) :
  has_shape h w 4 image ->
  has_shape h w 4 (manual_correction exposure offset image).
Proof.
  unfold has_shape, manual_correction. intros [Hh Hrows]. split.
  - now rewrite length_map.
  - apply Forall_map. eapply List.Forall_impl; [|exact Hrows].
    intros row [Hw Hpx]. split; [now rewrite length_map|].
    apply Forall_map. eapply List.Forall_impl; [|exact Hpx].
    intros px Hc. simpl. destruct (rgba_pixel px Hc) as (r & g & b & a & ->).
    reflexivity.
Qed.

Lemma transform_bytes (h w c : nat) (image : tensor Q) :
  has_shape h w c image ->
  has_shape h w c (transform image) /\
  all_elems (fun v => (0 <= v <= 255)%Z) (transform image).
Proof.
  intros Hs. rewrite transform_quantize. split.
  - now apply has_shape_flip0, has_shape_pointwise.
  - apply all_elems_flip0, all_elems_pointwise. intros a.
    apply quantize_floor.
Qed.

Lemma post_process_rgba_bytes (exposure offset : Q) (h w : nat) (image : tensor Q) :
  has_shape h w 4 image ->
  Server.rgba_bytes h w (post_process exposure offset image).
Proof.
  intros Hs. unfold Server.rgba_bytes, post_process.
  destruct (needs_correction exposure offset).
  - now apply transform_bytes, manual_correction_shape.
  - now apply transform_bytes.
Qed.

End RenderShape.

(** * Edge behaviour of the tail of [render] *)

Section RenderEdges.

Local Open Scope Q_scope.




(** Pixel by pixel: the RGBA pixel [r, g, b, a] of row [i] becomes the pixel
    of row [H - 1 - i] whose colours are the quantised corrected colours (the
    colours themselves under the default settings) and whose alpha is the
    quantised, clipped alpha. *)
Theorem post_process_pixel (exposure offset : Q) (image : tensor Q)
        (i j : nat) (row : list (list Q)) (r g b a : Q) :
  nth_error image i = Some row ->
  nth_error row j = Some [r; g; b; a] ->
  exists row',
    nth_error (post_process exposure offset image) (length image - 1 - i)
    = Some row' /\
    nth_error row' j
    = Some (if needs_correction exposure offset
            then [quantize (r * exposure + offset);
                  quantize (g * exposure + offset);
                  quantize (b * exposure + offset); quantize a]
            else [quantize r; quantize g; quantize b; quantize a]).
Proof.
  intros Hrow Hpx. rewrite post_process_pixels.
  assert (Hi : (i < length image)%nat) by (apply nth_error_Some; congruence).
  rewrite nth_error_rev, length_map.
  destruct (Nat.ltb_spec (length image - 1 - i) (length image)) as [_|?]; [|lia].
  replace (length image - S (length image - 1 - i))%nat with i by lia.
  rewrite nth_error_map, Hrow. simpl. eexists. split; [reflexivity|].
  rewrite nth_error_map, Hpx. simpl.
  now destruct (needs_correction exposure offset).
Qed.

Lemma post_process_pixel_witness :
  exists row',
    nth_error (post_process 2 0 [[[0.25; 0.5; 1; 3]]; [[0; 0; 0; 0]]]) 1
    = Some row' /\
    nth_error row' 0 = Some [127; 255; 255; 255]%Z.
Proof.
  exact (post_process_pixel 2 0 [[[0.25; 0.5; 1; 3]]; [[0; 0; 0; 0]]] 0 0
           [[0.25; 0.5; 1; 3]] 0.25 0.5 1 3 eq_refl eq_refl).
Defined.

(** The correction rebuilds every pixel from its first three channels and
    its last one: under non-default settings an image with [c] channels
    comes out with [min 3 c + min 1 c] channels (an RGB image gains a fourth
    channel, a copy of blue), under the default settings with [c]. *)
Theorem post_process_channels (exposure offset : Q) (h w c : nat)
        (image : tensor Q) :
  has_shape h w c image ->
  has_shape h w
            (if needs_correction exposure offset
             then Nat.min 3 c + Nat.min 1 c else c)
            (post_process exposure offset image).
Proof.
  intros Hs. unfold post_process.
  destruct (needs_correction exposure offset).
  - apply transform_bytes. destruct Hs as [Hh Hrows]. split.
    + unfold manual_correction. now rewrite length_map.
    + unfold manual_correction. apply Forall_map.
      eapply List.Forall_impl; [|exact Hrows].
      intros row [Hw Hpx]. split; [now rewrite length_map|].
      apply Forall_map. eapply List.Forall_impl; [|exact Hpx].
      intros px Hc. cbv beta in *. unfold first3, last1.
      rewrite length_app, length_map, length_firstn, length_skipn. lia.
  - now apply transform_bytes.
Qed.

Lemma post_process_channels_witness :
  has_shape 1 2 4 (post_process 2 0 [[[0.1; 0.2; 0.3]; [0.4; 0.5; 0.6]]]).
Proof.
  apply (post_process_channels 2 0 1 2 3 [[[0.1; 0.2; 0.3]; [0.4; 0.5; 0.6]]]).
  split; [reflexivity|].
  repeat (apply List.Forall_cons || apply List.Forall_nil || split).
Defined.

End RenderEdges.

(** * The reported values *)

Section FpsValues.

Local Open Scope Q_scope.
Import Fps.

Lemma tick_count_nonneg (t : Q) (s : counter) :
  (0 <= frame_cnt s)%Z -> (0 <= frame_cnt (fst (tick t s)))%Z.
Proof.
  intros H. rewrite tick_state.
  destruct (window_passed (t - prev_time s)); simpl; lia.
Qed.

Lemma loop_reports_positive (clock : list Q) (s : counter) (i : nat) (f : Q) :
  (0 <= frame_cnt s)%Z ->
  nth_error (loop s clock) i = Some (Some f) -> 0 < f.
Proof.
  revert s i. induction clock as [|t clock IH]; intros s i Hs Hi.
  - destruct i; discriminate.
  - destruct i as [|i]; simpl in Hi.
    + injection Hi as Hi. rewrite tick_report in Hi.
      destruct (window_passed (t - prev_time s)) eqn:Ew; [|discriminate].
      injection Hi as <-. apply window_passed_iff in Ew.
      apply Qlt_shift_div_l; [lra|]. rewrite Qmult_0_l.
      change 0 with (inject_Z 0). rewrite <- Zlt_Qlt. lia.
    + apply (IH (fst (tick t s)) i); [now apply tick_count_nonneg|exact Hi].
Qed.

(** Every value a loop logs is positive: the division of line 124 / 144 is
    by more than 2.0, never by zero, and the count is at least 1. *)
Theorem fps_report_positive (t0 : Q) (clock : list Q) (i : nat) (f : Q) :
  nth_error (loop (start t0) clock) i = Some (Some f) -> 0 < f.
Proof. apply loop_reports_positive. simpl. lia. Qed.

Lemma fps_report_positive_witness : 0 < 30 # 25.
Proof.
  exact (fps_report_positive 10 [10.5; 11; 12.5; 13; 14; 15] 2 (30 # 25) eq_refl).
Defined.

End FpsValues.

(** * Properties of the server *)

Section ServerFacts.

Import Server.
Local Open Scope nat_scope.

Context {X : externals}.

Implicit Types (st : state X) (l : label) (cam : camera_t X) (ph : tensor Z)
         (q : Z) (now : Q).

Lemma run_invariant (P : state X -> Prop) :
  (forall l st st', P st -> step l st = Some st' -> P st') ->
  forall ls st st', P st -> run ls st = Some st' -> P st'.
Proof.
  intros Hstep ls. induction ls as [|l ls IH]; intros st st' HP Hrun; simpl in Hrun.
  - now injection Hrun as <-.
  - destruct (step l st) as [st1|] eqn:E; [|discriminate].
    eapply IH; [|exact Hrun]. eapply Hstep; eauto.
Qed.

Lemma reachable_invariant (P : state X -> Prop) cam ph q now :
  P (init cam ph q now) ->
  (forall l st st', P st -> step l st = Some st' -> P st') ->
  forall st, reachable cam ph q now st -> P st.
Proof.
  intros Hinit Hstep st [ls Hrun]. eapply run_invariant; eauto.
Qed.

(** Every transition, statement by statement. *)
Ltac step_inv H :=
  match type of H with
  | step ?l ?st = Some _ =>
      destruct l; simpl in H;
      unfold render_step, send_step, send_accept, send_drop, recv_accept,
        recv_message, recv_step, recv_drop, gpu_run in H;
      simpl in H;
      repeat case_match; simplify_eq; simpl in *
  end.

Lemma locks_inv_init cam ph q now : locks_inv (init cam ph q now).
Proof.
  unfold locks_inv, image_lock_scope. simpl. repeat split; try discriminate.
  all: intros; simplify_map_eq.
Qed.

Ltac subst_pc :=
  repeat match goal with
    | E : r_pc (renderer _) = _ |- _ => rewrite E in *; clear E
    | E : s_pc _ = _ |- _ => rewrite E in *; clear E
    end; simpl in *.

Ltac split_lookup c c0 Hl :=
  destruct (decide (c = c0)) as [<-|?];
  [rewrite ?lookup_insert_eq, ?lookup_delete_eq in Hl
  |rewrite ?lookup_insert_ne, ?lookup_delete_ne in Hl by done];
  simplify_eq; simpl.

Lemma locks_inv_step l st st' :
  locks_inv st -> step l st = Some st' -> locks_inv st'.
Proof.
  intros Hinv H. step_inv H.
  all: destruct Hinv as ((Hr & Hs) & Hlive & Hcam).
  all: unfold locks_inv, image_lock_scope; simpl.
  all: repeat match goal with
         | Hl : senders ?st0 !! ?c = Some ?s |- _ =>
             pose proof (Hs c s Hl);
             assert (senders st0 !! c <> None) by congruence; revert Hl
         end; intros.
  all: subst_pc.
  all: try (split; [split|split]).
  all: try solve [timeout 5 (intuition congruence)].
  all: try (intros c0 s0 Hl; split_lookup c c0 Hl).
  all: try (intros c0 Hl; destruct (decide (c = c0)) as [<-|Hne];
            [rewrite ?lookup_insert_eq, ?lookup_delete_eq
            |rewrite ?lookup_insert_ne, ?lookup_delete_ne by done];
            simplify_eq; simpl).
  all: try solve [timeout 5 (intuition congruence)].
  all: try solve [specialize (Hs _ _ ltac:(eassumption)); simpl in *;
                  intuition congruence].
  all: try solve [intros c1 s1 Hl1; specialize (Hs _ _ Hl1); simpl in *;
                  intuition congruence].
  all: try solve [split; [intros Hx; apply Hlive in Hx; congruence | discriminate]].
  all: eapply Hlive; eassumption.
Qed.

Lemma locks_inv_reachable cam ph q now st :
  reachable cam ph q now st -> locks_inv st.
Proof.
  apply reachable_invariant; [apply locks_inv_init|].
  intros l s s'. apply locks_inv_step.
Qed.

Lemma locals_inv_init cam ph q now : locals_inv (init cam ph q now).
Proof.
  unfold locals_inv. simpl. repeat split; try discriminate.
  all: intros; simplify_map_eq.
Qed.

Lemma locals_inv_step l st st' :
  locals_inv st -> step l st = Some st' -> locals_inv st'.
Proof.
  intros Hinv H. step_inv H.
  all: destruct Hinv as (Hb & Hi & Hs).
  all: unfold locals_inv; simpl.
  all: repeat match goal with
         | Hl : senders ?st0 !! ?c = Some ?s |- _ =>
             pose proof (Hs c s Hl); revert Hl
         end; intros.
  all: subst_pc.
  all: try (split; [|split]).
  all: try solve [timeout 5 (intuition congruence)].
  all: try (intros c0 s0 Hl; split_lookup c c0 Hl).
  all: try solve [timeout 5 (intuition congruence)].
  all: solve [specialize (Hs _ _ ltac:(eassumption)); simpl in *;
              intuition congruence].
Qed.

Lemma locals_inv_reachable cam ph q now st :
  reachable cam ph q now st -> locals_inv st.
Proof.
  apply reachable_invariant; [apply locals_inv_init|].
  intros l s s'. apply locals_inv_step.
Qed.

Lemma gens_inv_init cam ph q now : gens_inv (init cam ph q now).
Proof.
  unfold gens_inv. simpl. repeat split; try discriminate; try constructor.
Qed.

Lemma gens_inv_step l st st' :
  gens_inv st -> step l st = Some st' -> gens_inv st'.
Proof.
  intros Hinv H. step_inv H.
  all: destruct Hinv as (Hle & Hf & Hobs & Hsort).
  all: unfold gens_inv; simpl.
  all: subst_pc.
  all: try solve [repeat split; (assumption || discriminate || lia || idtac)].
  - (* line 114: a new frame is rendered *)
    repeat split; [lia| |assumption|assumption].
    intros _ f [= <-]. reflexivity.
  - (* line 118: the frame is published *)
    match goal with Hi : r_image _ = Some ?f |- _ =>
      assert (Hg : gen f = rendered st) by (apply Hf; [reflexivity|exact Hi]) end.
    repeat split; [lia|discriminate| |assumption].
    eapply List.Forall_impl; [|exact Hobs]. simpl. intros p Hp. lia.
  - (* line 136: a reference is taken *)
    repeat split; [assumption|assumption| |].
    + apply List.Forall_cons; [simpl; lia|assumption].
    + apply SSorted_cons; [assumption|assumption].
Qed.

Lemma gens_inv_reachable cam ph q now st :
  reachable cam ph q now st -> gens_inv st.
Proof.
  apply reachable_invariant; [apply gens_inv_init|].
  intros l s s'. apply gens_inv_step.
Qed.

(** The references one connection took, oldest first, never decrease. *)
Lemma gens_of_sorted (c : nat) (obs : list (nat * nat)) :
  StronglySorted (fun x y : nat * nat => snd y <= snd x) obs ->
  forall i j gi gj,
    i <= j ->
    gens_of c obs !! i = Some gi -> gens_of c obs !! j = Some gj -> gi <= gj.
Proof.
  induction 1 as [|[c' g] obs Hs IH Hall]; intros i j gi gj Hij Hi Hj; simpl in *.
  - discriminate.
  - destruct (decide (c' = c)) as [->|Hne]; [|eauto].
    assert (Hbound : forall k gk, gens_of c obs !! k = Some gk -> gk <= g).
    { clear -Hall. induction obs as [|[c1 g1] obs IHo]; intros k gk Hk; simpl in *.
      - discriminate.
      - apply Forall_cons in Hall as [Hg1 Hall]. simpl in Hg1.
        destruct (decide (c1 = c)); [|eauto].
        apply lookup_app_Some in Hk as [Hk|[_ Hk]]; [eauto|].
        apply list_lookup_singleton_Some in Hk as [_ <-]. exact Hg1. }
    apply lookup_app_Some in Hi as [Hi|[Hli Hi]];
      apply lookup_app_Some in Hj as [Hj|[Hlj Hj]].
    + eauto.
    + apply list_lookup_singleton_Some in Hj as [_ <-]. eauto.
    + apply list_lookup_singleton_Some in Hi as [Hi0 <-].
      apply lookup_lt_Some in Hj. lia.
    + apply list_lookup_singleton_Some in Hi as [_ <-].
      apply list_lookup_singleton_Some in Hj as [_ <-]. lia.
Qed.

Lemma wait_covers_extend st st' g p p2 (ops1 ops2 : list dev_op) :
  issued (current_stream st') = issued (current_stream st) ++ ops1 ->
  issued (copy_stream st') = issued (copy_stream st) ++ ops2 ->
  p <= p2 -> wait_covers st g p -> wait_covers st' g p2.
Proof.
  intros E1 E2 Hp (p' & k & i & Hp' & Hw & Hi & Hk).
  exists p', k, i. rewrite E1, E2.
  repeat split; [lia| |assumption|].
  - now apply lookup_app_l_Some.
  - now apply lookup_app_l_Some.
Qed.

Lemma streams_inv_init cam ph q now : streams_inv (init cam ph q now).
Proof.
  unfold streams_inv. simpl. repeat split; try lia; try discriminate.
  all: intros; simplify_eq.
Qed.

Lemma streams_inv_step l st st' :
  streams_inv st -> step l st = Some st' -> streams_inv st'.
Proof.
  intros Hinv H. step_inv H.
  all: destruct Hinv as (Hcur & Hcp & Hmem & Hwait & Hloc).
  all: unfold streams_inv; simpl.
  all: subst_pc.
  all: try solve [repeat split; (assumption || lia || idtac);
                  intros f Hf; specialize (Hloc f Hf); simpl in *; auto].
  - (* line 114: the kernels of a new frame are launched *)
    split; [rewrite length_app; lia|]. split; [assumption|].
    split; [|split; [assumption|]].
    + intros p g Hl.
      eapply wait_covers_extend with (ops1 := [Kernels _]) (ops2 := []);
        [reflexivity|simpl; now rewrite app_nil_r|apply Nat.le_refl|now apply Hmem].
    + intros f [= <-]. exists (length (issued (current_stream st))). simpl.
      now apply list_lookup_middle.
  - (* line 115: wait_stream *)
    split; [assumption|]. split; [rewrite length_app; lia|].
    split; [|split].
    + intros p g Hl. apply lookup_app_Some in Hl as [Hl|[_ Hl]].
      * eapply wait_covers_extend with (ops1 := []) (ops2 := [_]);
          [simpl; now rewrite app_nil_r|reflexivity|apply Nat.le_refl|now apply Hmem].
      * apply list_lookup_singleton_Some in Hl as [_ [=]].
    + intros p k Hp Hl. rewrite lookup_app_l in Hl by lia. eauto.
    + intros f Hf. destruct (Hloc f Hf) as [i Hi].
      exists (length (issued (copy_stream st))),
        (length (issued (current_stream st))), i. simpl.
      repeat split.
      * rewrite length_app. simpl. lia.
      * now apply list_lookup_middle.
      * now apply lookup_lt_Some in Hi.
      * exact Hi.
  - (* line 118: the copy is queued *)
    split; [assumption|]. split; [rewrite length_app; lia|].
    split; [|split; [|auto]].
    + intros p g Hl. apply lookup_app_Some in Hl as [Hl|[Hp Hl]].
      * eapply wait_covers_extend with (ops1 := []) (ops2 := [_]);
          [simpl; now rewrite app_nil_r|reflexivity|apply Nat.le_refl|now apply Hmem].
      * apply list_lookup_singleton_Some in Hl as [Hp0 [= <-]].
        eapply wait_covers_extend with (ops1 := []) (ops2 := [_]);
          [simpl; now rewrite app_nil_r|reflexivity| |eapply Hloc; eassumption].
        lia.
    + intros p k Hp Hl. rewrite lookup_app_l in Hl by lia. eauto.
  - (* the device runs an operation of the current stream *)
    match goal with Hop : issued _ !! _ = Some _ |- _ =>
      pose proof (lookup_lt_Some _ _ _ Hop) as Hlt end.
    split; [lia|]. split; [assumption|]. split; [|split].
    + intros p g Hl.
      eapply wait_covers_extend with (ops1 := []) (ops2 := []);
        [simpl; now rewrite app_nil_r|simpl; now rewrite app_nil_r
        |apply Nat.le_refl|now apply Hmem].
    + intros p k Hp Hl. specialize (Hwait p k Hp Hl). lia.
    + intros f Hf. specialize (Hloc f Hf).
      destruct (r_pc (renderer st)); auto.
  - (* the device runs an operation of the copy stream *)
    match goal with Hop : issued _ !! _ = Some _ |- _ =>
      pose proof (lookup_lt_Some _ _ _ Hop) as Hlt end.
    split; [assumption|]. split; [lia|]. split; [|split].
    + intros p g Hl.
      eapply wait_covers_extend with (ops1 := []) (ops2 := []);
        [simpl; now rewrite app_nil_r|simpl; now rewrite app_nil_r
        |apply Nat.le_refl|now apply Hmem].
    + intros p k Hp Hl.
      destruct (decide (p = ran (copy_stream st))) as [->|Hne].
      * simplify_eq. simpl in *. now apply Nat.leb_le.
      * apply (Hwait p k); [lia|assumption].
    + intros f Hf. specialize (Hloc f Hf).
      destruct (r_pc (renderer st)); auto.
Qed.

Lemma streams_inv_reachable cam ph q now st :
  reachable cam ph q now st -> streams_inv st.
Proof.
  apply reachable_invariant; [apply streams_inv_init|].
  intros l s s'. apply streams_inv_step.
Qed.

Lemma frames_inv_init cam ph q now h w :
  randint_0_255 h w ph -> frames_inv h w (init cam ph q now).
Proof.
  intros [Hs Hv]. unfold frames_inv, rgba_bytes. simpl. split; [split|discriminate].
  - exact Hs.
  - unfold all_elems in *.
    eapply List.Forall_impl; [|exact Hv]. intros row Hrow.
    eapply List.Forall_impl; [|exact Hrow]. intros px Hpx.
    eapply List.Forall_impl; [|exact Hpx]. simpl. intros v Hv'. lia.
Qed.

Lemma frames_inv_step h w l st st' :
  (forall b, has_shape h w 4 (forward X b)) ->
  frames_inv h w st -> step l st = Some st' -> frames_inv h w st'.
Proof.
  intros Hfwd Hinv H. step_inv H.
  all: destruct Hinv as (Himg & Hloc).
  all: unfold frames_inv; simpl.
  all: try solve [split; assumption].
  - (* line 114 *)
    split; [assumption|]. intros f [= <-]. simpl.
    unfold render. apply post_process_rgba_bytes, Hfwd.
  - (* line 118 *)
    split; [|assumption]. now apply Hloc.
Qed.

Lemma camera_step l st st' : step l st = Some st' -> camera st' = camera st.
Proof. intros H. step_inv H; reflexivity. Qed.

Lemma recv_step_noop c st :
  receivers st !! c <> None -> recv_step c st = Some st.
Proof. unfold recv_step. now destruct (receivers st !! c). Qed.

Lemma copies_inv_init cam ph q now : copies_inv (init cam ph q now).
Proof.
  unfold copies_inv. simpl. split; [now left|]. intros; simplify_map_eq.
Qed.

Lemma copies_inv_step l st st' :
  locks_inv st -> copies_inv st -> step l st = Some st' -> copies_inv st'.
Proof.
  intros Hlocks Hinv H. step_inv H.
  all: destruct Hlocks as ((Hr & Hs) & _ & _).
  all: destruct Hinv as (Himg & Hdone).
  all: unfold copies_inv; simpl.
  all: subst_pc.
  all: try solve [split; [assumption|];
                  intros c0 s0 Hl; split_lookup c c0 Hl; eauto; discriminate].
  all: try solve [split; assumption].
  - (* line 115: a wait is queued, no copy *)
    split.
    + destruct Himg as [H0|[p Hp]]; [now left|right].
      exists p. now apply lookup_app_l_Some.
    + intros c s Hl Hpc p g Hp.
      apply lookup_app_Some in Hp as [Hp|[_ Hp]]; [eauto|].
      apply list_lookup_singleton_Some in Hp as [_ [=]].
  - (* line 118: the render loop holds the lock, nobody is at line 136 *)
    split.
    + right. exists (length (issued (copy_stream st))).
      now apply list_lookup_middle.
    + intros c s Hl Hpc. exfalso.
      destruct (Hs c s Hl) as [_ Hheld]. rewrite Hpc in Hheld.
      specialize (Hheld eq_refl). destruct Hr as [_ Hr].
      specialize (Hr eq_refl). congruence.
  - (* line 135: synchronize returns, the copy stream is drained *)
    split; [assumption|].
    intros c0 s0 Hl Hpc p g Hp. split_lookup c c0 Hl.
    + match goal with Hidle : idle _ = true |- _ =>
        apply Nat.leb_le in Hidle; apply lookup_lt_Some in Hp; lia end.
    + eauto.
  - (* the device runs an operation of the copy stream *)
    split; [assumption|]. intros c s Hl Hpc p g Hp.
    specialize (Hdone c s Hl Hpc p g Hp). lia.
Qed.

Lemma copies_inv_reachable cam ph q now st :
  reachable cam ph q now st -> copies_inv st.
Proof.
  intros Hr. cut (locks_inv st /\ copies_inv st); [now intros [_ ?]|].
  revert st Hr. apply reachable_invariant.
  - split; [apply locks_inv_init|apply copies_inv_init].
  - intros l s s' [Hl Hc] Hstep. split.
    + eapply locks_inv_step; eauto.
    + eapply copies_inv_step; eauto.
Qed.

(** What line 136 reads is complete: when a connection takes the reference,
    the published frame is the placeholder or its copy has run on the device,
    and so have the kernels that rendered it.  The wait of line 135 gives
    this only because it is made inside the lock. *)
Lemma read_sees_complete_frame cam ph q now st c s :
  reachable cam ph q now st ->
  senders st !! c = Some s -> s_pc s = SL_numpy ->
  gen (image st) = 0 \/
  exists p i,
    p < ran (copy_stream st) /\
    issued (copy_stream st) !! p = Some (Memcpy_d2h (gen (image st))) /\
    i < ran (current_stream st) /\
    issued (current_stream st) !! i = Some (Kernels (gen (image st))).
Proof.
  intros Hr Hl Hpc.
  destruct (copies_inv_reachable _ _ _ _ _ Hr) as (Himg & Hdone).
  destruct (streams_inv_reachable _ _ _ _ _ Hr) as (_ & _ & Hmem & Hwait & _).
  destruct Himg as [H0|[p Hp]]; [now left|right].
  pose proof (Hdone c s Hl Hpc p _ Hp) as Hran.
  destruct (Hmem p _ Hp) as (p' & k & i & Hp' & Hw & Hi & Hk).
  exists p, i. repeat split; [exact Hran|exact Hp| |exact Hk].
  specialize (Hwait p' k ltac:(lia) Hw). lia.
Qed.

(** The report of both loops is the one of [Fps.tick]. *)
Lemma render_loop_reports st t :
  r_pc (renderer st) = RL_fps ->
  exists st',
    step (Render_step t) st = Some st' /\
    r_fps (renderer st') = fst (Fps.tick t (r_fps (renderer st))) /\
    logged st'
    = match snd (Fps.tick t (r_fps (renderer st))) with
      | Some fps => Render_fps fps :: logged st
      | None => logged st
      end.
Proof.
  intros Hpc. eexists. split.
  - simpl. unfold render_step. rewrite Hpc. reflexivity.
  - split; reflexivity.
Qed.

Lemma send_loop_reports st c s t :
  senders st !! c = Some s -> s_pc s = SL_fps ->
  exists st' s',
    step (Send_step c t) st = Some st' /\
    senders st' !! c = Some s' /\
    s_fps s' = fst (Fps.tick t (s_fps s)) /\
    logged st'
    = match snd (Fps.tick t (s_fps s)) with
      | Some fps => Send_fps c fps :: logged st
      | None => logged st
      end.
Proof.
  intros Hl Hpc. eexists _, _. split.
  - simpl. unfold send_step. rewrite Hl, Hpc. reflexivity.
  - simpl. rewrite lookup_insert_eq. repeat split.
Qed.

(** C1, as amended.  In every reachable state the image lock is held by the
    render loop exactly while it is at lines 118 (queueing the copy and
    storing the reference) and by connection [c] exactly while its send loop
    is at lines 135-136, [stream.synchronize()] included; it is free of [c]
    during the JPEG encoding, the send and the report. *)
Theorem image_lock_scope_reachable cam ph q now st :
  reachable cam ph q now st -> image_lock_scope st.
Proof. intros Hr. now apply (locks_inv_reachable cam ph q now). Qed.

(** C2.  The render loop blocks on nothing but the image lock held by a
    connection: no statement of it waits for the device.  Line 118 always
    runs at once, installs the new frame and leaves its copy queued, not yet
    run; a connection in [stream.synchronize()] is what waits for the copy
    stream to drain. *)
Theorem publish_never_waits cam ph q now st :
  reachable cam ph q now st ->
  (forall t, step (Render_step t) st = None ->
     r_pc (renderer st) = RL_lock_image /\
     exists c, image_lock st = Some (Send_conn c)) /\
  (r_pc (renderer st) = RL_publish ->
   exists f, r_image (renderer st) = Some f /\
     forall t, exists st',
       step (Render_step t) st = Some st' /\
       image st' = f /\
       copy_stream st' = enqueue (Memcpy_d2h (gen f)) (copy_stream st) /\
       ran (copy_stream st') < length (issued (copy_stream st'))) /\
  (forall c s t, senders st !! c = Some s -> s_pc s = SL_synchronize ->
     (step (Send_step c t) st = None <-> idle (copy_stream st) = false)).
Proof.
  intros Hr.
  destruct (locks_inv_reachable _ _ _ _ _ Hr) as ((Hrl & _) & _ & Hcam).
  destruct (locals_inv_reachable _ _ _ _ _ Hr) as (Hb & Hi & _).
  destruct (streams_inv_reachable _ _ _ _ _ Hr) as (_ & Hcp & _).
  split; [|split].
  - intros t. simpl. unfold render_step.
    destruct (r_pc (renderer st)) eqn:Epc; simpl in *; try discriminate.
    + rewrite Hcam. discriminate.
    + destruct (r_batch (renderer st)); [discriminate|]. now destruct Hb.
    + destruct (image_lock st) as [[|c]|] eqn:El; try discriminate.
      * destruct Hrl as [Hrl _]. now specialize (Hrl eq_refl).
      * intros _. split; [reflexivity|]. now exists c.
    + destruct (r_image (renderer st)); [discriminate|]. now destruct Hi.
  - intros Epc. rewrite Epc in Hi. simpl in Hi.
    destruct (r_image (renderer st)) as [f|] eqn:Ef; [|now destruct Hi].
    exists f. split; [reflexivity|]. intros t. eexists. split.
    + simpl. unfold render_step. rewrite Epc, Ef. reflexivity.
    + simpl. repeat split. rewrite length_app. simpl. lia.
  - intros c s t Hs Epc. simpl. unfold send_step. rewrite Hs, Epc.
    destruct (idle (copy_stream st)); split; congruence.
Qed.

(** C7.  The generations a connection has read, in the order of its reads,
    never decrease. *)
Theorem observed_generations_monotone cam ph q now st (c i j gi gj : nat) :
  reachable cam ph q now st ->
  i <= j ->
  gens_of c (observed st) !! i = Some gi ->
  gens_of c (observed st) !! j = Some gj ->
  gi <= gj.
Proof.
  intros Hr. destruct (gens_inv_reachable _ _ _ _ _ Hr) as (_ & _ & _ & Hsort).
  now apply gens_of_sorted.
Qed.

(** C8.  The camera of every reachable state is the camera of [__init__],
    and any number of iterations of [recv_loop] on a connection returns the
    state it started from: nothing is read from the connection. *)
Theorem recv_loop_noop cam ph q now st :
  reachable cam ph q now st ->
  camera st = cam /\
  forall c n, receivers st !! c <> None -> recv_loop n c st = Some st.
Proof.
  intros Hr. split.
  - revert st Hr. apply (reachable_invariant (fun s => camera s = cam));
      [reflexivity|].
    intros l s s' Hs Hstep. now rewrite (camera_step _ _ _ Hstep).
  - intros c n Hc. induction n as [|n IH]; simpl; [reflexivity|].
    now rewrite (recv_step_noop c st Hc).
Qed.

(** C9.  Every device-to-host copy in the copy stream comes after a
    [wait_stream] on a prefix of the current stream that contains the kernels
    of the frame copied; so when the device has run the copy it has run those
    kernels. *)
Theorem copy_ordered_after_render cam ph q now st (p g : nat) :
  reachable cam ph q now st ->
  issued (copy_stream st) !! p = Some (Memcpy_d2h g) ->
  wait_covers st g p /\
  (p < ran (copy_stream st) ->
   exists i, i < ran (current_stream st) /\
             issued (current_stream st) !! i = Some (Kernels g)).
Proof.
  intros Hr Hp.
  destruct (streams_inv_reachable _ _ _ _ _ Hr) as (_ & _ & Hmem & Hwait & _).
  pose proof (Hmem p g Hp) as Hc. split; [exact Hc|].
  intros Hran. destruct Hc as (p' & k & i & Hp' & Hw & Hi & Hk).
  exists i. split; [|exact Hk].
  specialize (Hwait p' k ltac:(lia) Hw). lia.
Qed.

(** C10.  If the renderer returns H x W x 4 images, the published tensor of
    every reachable state is an H x W x 4 tensor of bytes. *)
Theorem image_always_rgba_bytes cam ph q now st (h w : nat) :
  randint_0_255 h w ph ->
  (forall b, has_shape h w 4 (forward X b)) ->
  reachable cam ph q now st ->
  rgba_bytes h w (pixels (image st)).
Proof.
  intros Hph Hfwd Hr.
  cut (frames_inv h w st); [now intros [? _]|].
  revert st Hr. apply reachable_invariant; [now apply frames_inv_init|].
  intros l s s'. now apply frames_inv_step.
Qed.

(** ** Settings, frames and payloads *)

Lemma render_default st b :
  exposure st = 1.0%Q -> offset st = 0.0%Q ->
  render st b = transform (forward X b).
Proof. intros He Ho. unfold render. rewrite He, Ho. reflexivity. Qed.

Lemma content_inv_init cam ph q now : content_inv cam ph q (init cam ph q now).
Proof.
  unfold content_inv. simpl.
  split; [reflexivity|]. split; [reflexivity|]. split; [reflexivity|].
  split; [reflexivity|]. split; [left; now split|].
  split; [discriminate|]. split; [discriminate|].
  split; [intros; simplify_map_eq|constructor].
Qed.

Lemma content_inv_step cam ph q l st st' :
  content_inv cam ph q st -> step l st = Some st' -> content_inv cam ph q st'.
Proof.
  intros Hinv H. step_inv H.
  all: destruct Hinv as (Hcam & He & Ho & Hq & Himg & Hb & Hf & Hs & Hsent).
  all: unfold content_inv; simpl.
  all: repeat match goal with
         | Hl : senders ?st0 !! ?c = Some ?s |- _ =>
             pose proof (Hs c s Hl) as [? ?]; revert Hl
         end; intros.
  all: refine (conj _ (conj _ (conj _ (conj _ (conj _ (conj _ (conj _
                 (conj _ _)))))))); try assumption.
  all: try solve [intros c0 s0 Hl; split_lookup c c0 Hl; eauto; split; discriminate].
  - (* line 113 *) intros b [= <-]. now rewrite Hcam.
  - (* line 114: batch unchanged *) intros b0 [= <-]. now apply Hb.
  - (* line 114: the frame *)
    intros f [= <-]. simpl. split; [lia|].
    rewrite (render_default st b He Ho). unfold rendered_frame.
    now rewrite (Hb b ltac:(assumption)).
  - (* line 118 *) right. now apply Hf.
  - (* line 136 *)
    intros c0 s0 Hl. split_lookup c c0 Hl; [|eauto].
    split; [intros f [= <-]; exact Himg|assumption].
  - (* line 137 *)
    intros c0 s0 Hl. split_lookup c c0 Hl; [|eauto].
    split; [intros f0 [= <-]; eauto|]. intros bytes [= <-].
    exists f. split; [eauto|reflexivity].
  - (* line 138 *)
    apply List.Forall_cons; [simpl; eauto|assumption].
Qed.

Lemma content_inv_reachable cam ph q now st :
  reachable cam ph q now st -> content_inv cam ph q st.
Proof.
  apply reachable_invariant; [apply content_inv_init|].
  intros l s s'. apply content_inv_step.
Qed.

(** [self.exposure], [self.offset] and [self.jpeg_quality] are assigned in
    [__init__] and nowhere else: the server always runs with exposure 1.0,
    offset 0.0 and the quality it was built with, so [render] never takes the
    branch of line 164 and returns the flipped, clipped, quantised output of
    the forward pass. *)
Theorem settings_never_change cam ph q now st :
  reachable cam ph q now st ->
  exposure st = 1.0%Q /\ offset st = 0.0%Q /\ jpeg_quality st = q /\
  forall b, render st b = flip0 (pointwise quantize (forward X b)).
Proof.
  intros Hr.
  destruct (content_inv_reachable _ _ _ _ _ Hr) as (_ & He & Ho & Hq & _).
  repeat split; try assumption.
  intros b. rewrite (render_default st b He Ho). apply transform_quantize.
Qed.

(** What [self.image] holds is the placeholder until the first frame is
    published and from then on the render of the camera built in
    [__init__]: no transition moves the camera, so every frame is the same
    view. *)
Theorem published_frame_content cam ph q now st :
  reachable cam ph q now st ->
  (gen (image st) = 0 /\ pixels (image st) = ph) \/
  (0 < gen (image st) /\
   pixels (image st) = flip0 (pointwise quantize (forward X (to_batch X cam)))).
Proof.
  intros Hr.
  destruct (content_inv_reachable _ _ _ _ _ Hr) as (_ & _ & _ & _ & Himg & _).
  destruct Himg as [H0|[Hg Hp]]; [now left|right].
  split; [exact Hg|]. rewrite Hp. apply transform_quantize.
Qed.

(** Whatever a send loop hands to [websocket.send] is the JPEG encoding, at
    the quality given to [__init__], of the placeholder or of the rendered
    frame. *)
Theorem sent_payloads cam ph q now st (c : nat) (bytes : list Z) :
  reachable cam ph q now st ->
  In (c, bytes) (sent st) ->
  bytes = jpeg_encode X ph q \/
  bytes = jpeg_encode X (rendered_frame cam) q.
Proof.
  intros Hr Hin.
  destruct (content_inv_reachable _ _ _ _ _ Hr) as (_&_&_&_&_&_&_&_& Hsent).
  rewrite List.Forall_forall in Hsent.
  destruct (Hsent _ Hin) as (f & Hf & Hb). simpl in Hb.
  destruct Hf as [[_ Hp]|[_ Hp]]; rewrite Hp in Hb; auto.
Qed.

(** ** The device queues *)

Lemma frame_ops_snoc (g : nat) :
  concat (map frame_ops (seq 1 (S g)))
  = concat (map frame_ops (seq 1 g)) ++ [Wait_event (S g); Memcpy_d2h (S g)].
Proof.
  rewrite seq_S, map_app, concat_app. simpl. reflexivity.
Qed.

Lemma queues_inv_init cam ph q now : queues_inv (init cam ph q now).
Proof. unfold queues_inv. simpl. repeat split; discriminate. Qed.

Lemma queues_inv_step l st st' :
  queues_inv st -> step l st = Some st' -> queues_inv st'.
Proof.
  intros Hinv H. step_inv H.
  all: destruct Hinv as (Hcur & Hcp & Hn & Hf).
  all: unfold queues_inv; simpl.
  all: subst_pc.
  all: refine (conj _ (conj _ (conj _ _))); try assumption; try discriminate.
  - (* line 114 *)
    change (Kernels 1 :: map Kernels (seq 2 (rendered st)))
      with (map Kernels (seq 1 (S (rendered st)))).
    rewrite seq_S, map_app, Hcur. reflexivity.
  - lia.
  - intros _ f [= <-]. reflexivity.
  - (* line 115 *)
    rewrite Hcp, Hcur, length_map, length_seq, app_nil_r. reflexivity.
  - (* line 118 *)
    match goal with Hi : r_image _ = Some ?f |- _ =>
      assert (Hg : gen f = S (gen (image st)))
        by (rewrite (Hf eq_refl f Hi); lia) end.
    rewrite Hg, frame_ops_snoc, Hcp, app_nil_r, <- app_assoc.
    replace (rendered st) with (S (gen (image st))) by lia. reflexivity.
  - match goal with Hi : r_image _ = Some ?f |- _ =>
      rewrite (Hf eq_refl f Hi); lia end.
Qed.

Lemma queues_inv_reachable cam ph q now st :
  reachable cam ph q now st -> queues_inv st.
Proof.
  apply reachable_invariant; [apply queues_inv_init|].
  intros l s s'. apply queues_inv_step.
Qed.

(** The current stream holds the kernels of the frames rendered, in order,
    and nothing else; the copy stream holds, for every frame published, a
    wait for the kernels up to that frame followed by its copy, in order,
    and after them at most the wait of the frame in hand.  Every rendered
    frame is published before the next is rendered. *)
Theorem device_queues cam ph q now st :
  reachable cam ph q now st ->
  issued (current_stream st) = map Kernels (seq 1 (rendered st)) /\
  issued (copy_stream st)
  = concat (map frame_ops (seq 1 (gen (image st))))
    ++ (if render_waited (r_pc (renderer st))
        then [Wait_event (rendered st)] else []) /\
  rendered st
  = gen (image st) + (if render_holds_frame (r_pc (renderer st)) then 1 else 0).
Proof.
  intros Hr. destruct (queues_inv_reachable _ _ _ _ _ Hr) as (H1 & H2 & H3 & _).
  auto.
Qed.

Lemma copy_stream_waits st p k :
  queues_inv st ->
  issued (copy_stream st) !! p = Some (Wait_event k) -> k <= rendered st.
Proof.
  intros (_ & Hcp & Hn & _) Hp. rewrite Hcp in Hp.
  apply lookup_app_Some in Hp as [Hp|[_ Hp]].
  - apply list_elem_of_lookup_2 in Hp.
    apply list_elem_of_In, in_concat in Hp as (ops & Hops & Hin).
    apply in_map_iff in Hops as (g & <- & Hg). apply in_seq in Hg.
    simpl in Hin. destruct Hin as [[= <-]|[[=]|[]]]. lia.
  - destruct (render_waited (r_pc (renderer st))).
    + apply list_lookup_singleton_Some in Hp as [_ [= <-]]. lia.
    + now rewrite lookup_nil in Hp.
Qed.

Lemma current_stream_kernels st i op :
  queues_inv st ->
  issued (current_stream st) !! i = Some op -> exists g, op = Kernels g.
Proof.
  intros (Hcur & _) Hi. rewrite Hcur in Hi.
  apply list_elem_of_lookup_2, list_elem_of_In, in_map_iff in Hi
    as (g & <- & _). now exists g.
Qed.

(** The render loop has no transition only at line 117, with the image
    lock held by a connection. *)
Lemma render_blocked_on_image_lock cam ph q now st t :
  reachable cam ph q now st ->
  step (Render_step t) st = None ->
  r_pc (renderer st) = RL_lock_image /\
  exists c, image_lock st = Some (Send_conn c).
Proof.
  intros Hr.
  destruct (locks_inv_reachable _ _ _ _ _ Hr) as ((Hrl & _) & _ & Hcam).
  destruct (locals_inv_reachable _ _ _ _ _ Hr) as (Hb & Hi & _).
  simpl. unfold render_step.
  destruct (r_pc (renderer st)) eqn:Epc; simpl in *; try discriminate.
  - rewrite Hcam. discriminate.
  - destruct (r_batch (renderer st)); [discriminate|]. now destruct Hb.
  - destruct (image_lock st) as [[|c]|] eqn:El; try discriminate.
    + destruct Hrl as [Hrl _]. now specialize (Hrl eq_refl).
    + intros _. split; [reflexivity|]. now exists c.
  - destruct (r_image (renderer st)); [discriminate|]. now destruct Hi.
Qed.

(** ** Absence of deadlock *)

(** In every reachable state something can move: the render loop, or the
    device on one of its streams, or the connection that holds the image
    lock.  A connection waiting in [stream.synchronize()] under the lock
    stalls the render loop only until the device has drained the copy
    stream, and the device always can. *)
Theorem no_deadlock cam ph q now st t :
  reachable cam ph q now st ->
  step (Render_step t) st <> None \/
  step Gpu_current st <> None \/
  step Gpu_copy st <> None \/
  exists c, image_lock st = Some (Send_conn c) /\ step (Send_step c t) st <> None.
Proof.
  intros Hr.
  destruct (step (Render_step t) st) eqn:Estep; [now left|].
  destruct (render_blocked_on_image_lock _ _ _ _ _ t Hr Estep)
    as (Hpc & c & Hlock).
  destruct (locks_inv_reachable _ _ _ _ _ Hr) as ((_ & Hs) & Hlive & _).
  pose proof (queues_inv_reachable _ _ _ _ _ Hr) as Hq.
  destruct (streams_inv_reachable _ _ _ _ _ Hr) as (_ & Hran & _).
  destruct (senders st !! c) as [s|] eqn:Hc; [|now destruct (Hlive c Hlock)].
  destruct (Hs c s Hc) as [Hin _]. specialize (Hin Hlock).
  assert (Hsend : s_pc s <> SL_synchronize \/ idle (copy_stream st) = true ->
                  step (Send_step c t) st <> None).
  { intros Hok. simpl. unfold send_step. rewrite Hc.
    destruct (s_pc s) eqn:Epc; try discriminate.
    destruct Hok as [Hne|Hidle]; [now destruct Hne|].
    rewrite Hidle. discriminate. }
  destruct (decide (s_pc s = SL_synchronize)) as [Epc|Hne];
    [|right; right; right; exists c; auto].
  destruct (idle (copy_stream st)) eqn:Eidle;
    [right; right; right; exists c; auto|].
  (* waiting in synchronize: the device can run *)
  right. simpl. unfold gpu_run.
  apply Nat.leb_gt in Eidle.
  destruct (lookup_lt_is_Some_2 _ _ Eidle) as [op Hop]. rewrite Hop.
  destruct (runnable (current_stream st) op) eqn:Erun;
    [right; left; discriminate|].
  left. destruct op as [g|k|g]; try discriminate. simpl in Erun.
  apply Nat.leb_gt in Erun.
  pose proof (copy_stream_waits st _ k Hq Hop) as Hk.
  assert (Hlen : ran (current_stream st) < length (issued (current_stream st))).
  { destruct Hq as (Hcur & _). rewrite Hcur, length_map, length_seq. lia. }
  destruct (lookup_lt_is_Some_2 _ _ Hlen) as [op' Hop']. rewrite Hop'.
  destruct (current_stream_kernels st _ op' Hq Hop') as [g ->]. discriminate.
Qed.

(** ** Mutual exclusion *)

(** At most one thread is inside a [with self.image_lock:] block, and the
    lock is never left held by a connection that has gone. *)
Theorem image_lock_mutual_exclusion cam ph q now st :
  reachable cam ph q now st ->
  (forall c1 c2 s1 s2,
     senders st !! c1 = Some s1 -> senders st !! c2 = Some s2 ->
     send_in_image_lock (s_pc s1) = true ->
     send_in_image_lock (s_pc s2) = true -> c1 = c2) /\
  (render_in_image_lock (r_pc (renderer st)) = true ->
   forall c s, senders st !! c = Some s -> send_in_image_lock (s_pc s) = false) /\
  (forall c, image_lock st = Some (Send_conn c) -> senders st !! c <> None).
Proof.
  intros Hr.
  destruct (locks_inv_reachable _ _ _ _ _ Hr) as ((Hrl & Hs) & Hlive & _).
  split; [|split; [|exact Hlive]].
  - intros c1 c2 s1 s2 H1 H2 Hin1 Hin2.
    apply (Hs c1 s1 H1) in Hin1. apply (Hs c2 s2 H2) in Hin2. congruence.
  - intros Hin c s Hc. apply Hrl in Hin.
    destruct (send_in_image_lock (s_pc s)) eqn:E; [|reflexivity].
    apply (Hs c s Hc) in E. congruence.
Qed.

(** ** What a send loop leaves alone *)

(** Accepting, running or dropping a connection on the send port changes
    neither the camera, the published frame, the settings, the device queues,
    the render loop, the receive connections nor any other send connection:
    it touches the image lock, its own locals and the output only. *)
Theorem send_loop_frame c l st st' :
  send_label c l -> step l st = Some st' ->
  camera st' = camera st /\ image st' = image st /\
  exposure st' = exposure st /\ offset st' = offset st /\
  jpeg_quality st' = jpeg_quality st /\
  current_stream st' = current_stream st /\
  copy_stream st' = copy_stream st /\
  camera_lock st' = camera_lock st /\
  renderer st' = renderer st /\ receivers st' = receivers st /\
  rendered st' = rendered st /\
  forall c', c' <> c -> senders st' !! c' = senders st !! c'.
Proof.
  intros [[t ->] | [[t ->] | ->]] H; simpl in H;
    unfold send_step, send_accept, send_drop in H; simpl in H;
    repeat case_match; simplify_eq; simpl.
  all: refine (conj _ (conj _ (conj _ (conj _ (conj _ (conj _ (conj _
                 (conj _ (conj _ (conj _ (conj _ _))))))))))); try reflexivity.
  all: intros c' Hne;
    rewrite ?lookup_insert_ne, ?lookup_delete_ne by congruence; reflexivity.
Qed.

(** ** Generations advance one at a time *)

(** Only line 118 replaces [self.image], and it replaces generation [g] by
    generation [g + 1]: no rendered frame is skipped by the publisher and
    none is published twice. *)
Theorem generation_advances_by_one cam ph q now st l st' :
  reachable cam ph q now st ->
  step l st = Some st' ->
  image st' = image st \/
  (r_pc (renderer st) = RL_publish /\
   (exists t, l = Render_step t) /\
   gen (image st') = S (gen (image st))).
Proof.
  intros Hr H.
  destruct (queues_inv_reachable _ _ _ _ _ Hr) as (_ & _ & Hn & Hf).
  step_inv H; try (now left).
  right. split; [reflexivity|]. split; [now eexists|].
  rewrite (Hf eq_refl f eq_refl). lia.
Qed.

(** ** What the render loop leaves alone *)

(** No statement of [render_loop] changes the camera, the settings, a
    connection's locals or what has been read or sent. *)
Theorem render_loop_frame t st st' :
  step (Render_step t) st = Some st' ->
  camera st' = camera st /\
  exposure st' = exposure st /\ offset st' = offset st /\
  jpeg_quality st' = jpeg_quality st /\
  senders st' = senders st /\ receivers st' = receivers st /\
  observed st' = observed st /\ sent st' = sent st.
Proof.
  intros H. simpl in H. unfold render_step in H.
  repeat case_match; simplify_eq; simpl; repeat split.
Qed.

End ServerFacts.

(** * The theorems on a one-pixel server *)

Section TinyServer.

Import Server.
Local Open Scope nat_scope.

(** C1, as stated, fails: after [stalled_trace] connection 0 is inside
    [stream.synchronize()], waiting for the copy of frame 1, and holds the
    image lock; the render loop, which has rendered frame 2, cannot enter its
    [with self.image_lock:] block. *)
Lemma lock_held_across_synchronize :
  exists st : state tiny,
    run stalled_trace tiny_init = Some st /\
    ~ lock_free_while_waiting st /\
    step (Send_step 0 3) st = None /\
    step (Render_step 3) st = None.
Proof.
  eexists. split; [vm_compute; reflexivity|].
  split; [|split; vm_compute; reflexivity].
  intros Hfree. eapply (Hfree 0); vm_compute; reflexivity.
Qed.

Lemma image_lock_scope_reachable_witness :
  exists st : state tiny,
    run stalled_trace tiny_init = Some st /\ image_lock_scope st.
Proof.
  eexists. split; [vm_compute; reflexivity|].
  apply (image_lock_scope_reachable (X := tiny) tt [[[7; 7; 7; 7]]]%Z 75 0%Q).
  exists stalled_trace. vm_compute. reflexivity.
Defined.

Lemma publish_never_waits_witness :
  exists st : state tiny,
    run before_publish_trace tiny_init = Some st /\
    exists f, r_image (renderer st) = Some f /\
      forall t, exists st',
        step (Render_step t) st = Some st' /\
        image st' = f /\
        copy_stream st' = enqueue (Memcpy_d2h (gen f)) (copy_stream st) /\
        ran (copy_stream st') < length (issued (copy_stream st')).
Proof.
  eexists. split; [vm_compute; reflexivity|].
  refine (proj1 (proj2 (publish_never_waits (X := tiny) tt [[[7; 7; 7; 7]]]%Z
                          75 0%Q _ _)) _).
  - exists before_publish_trace. vm_compute. reflexivity.
  - vm_compute. reflexivity.
Defined.

Lemma observed_generations_monotone_witness :
  exists st : state tiny,
    run two_reads_trace tiny_init = Some st /\
    gens_of 0 (observed st) = [0; 1] /\ 0 <= 1.
Proof.
  eexists. split; [vm_compute; reflexivity|].
  split; [vm_compute; reflexivity|].
  refine (observed_generations_monotone (X := tiny) tt [[[7; 7; 7; 7]]]%Z
            75 0%Q _ 0 0 1 0 1 _ _ _ _).
  - exists two_reads_trace. vm_compute. reflexivity.
  - lia.
  - vm_compute. reflexivity.
  - vm_compute. reflexivity.
Defined.

Lemma recv_loop_noop_witness :
  exists st : state tiny,
    run recv_trace tiny_init = Some st /\
    camera st = tt /\ recv_loop 10 5 st = Some st.
Proof.
  eexists. split; [vm_compute; reflexivity|].
  destruct (recv_loop_noop (X := tiny) tt [[[7; 7; 7; 7]]]%Z 75 0%Q
              _ (ex_intro _ recv_trace eq_refl)) as [Hcam Hloop].
  split; [exact Hcam|]. apply Hloop. vm_compute. discriminate.
Defined.

Lemma copy_ordered_after_render_witness :
  exists st : state tiny,
    run copied_trace tiny_init = Some st /\
    exists i, i < ran (current_stream st) /\
              issued (current_stream st) !! i = Some (Kernels 1).
Proof.
  eexists. split; [vm_compute; reflexivity|].
  refine (proj2 (copy_ordered_after_render (X := tiny) tt [[[7; 7; 7; 7]]]%Z
                   75 0%Q _ 1 1 _ _) _).
  - exists copied_trace. vm_compute. reflexivity.
  - vm_compute. reflexivity.
  - vm_compute. lia.
Defined.

Lemma image_always_rgba_bytes_witness :
  exists st : state tiny,
    run copied_trace tiny_init = Some st /\
    rgba_bytes 1 1 (pixels (image st)).
Proof.
  eexists. split; [vm_compute; reflexivity|].
  refine (image_always_rgba_bytes (X := tiny) tt [[[7; 7; 7; 7]]]%Z
            75 0%Q _ 1 1 _ _ _).
  - split.
    + split; [reflexivity|]. repeat (apply List.Forall_cons || apply List.Forall_nil || split).
    + repeat (apply List.Forall_cons || apply List.Forall_nil); lia.
  - intros b. split; [reflexivity|].
    repeat (apply List.Forall_cons || apply List.Forall_nil || split).
  - exists copied_trace. vm_compute. reflexivity.
Defined.

Lemma read_sees_complete_frame_witness :
  exists st : state tiny,
    run second_read_trace tiny_init = Some st /\
    (gen (image st) = 0 \/
     exists p i,
       p < ran (copy_stream st) /\
       issued (copy_stream st) !! p = Some (Memcpy_d2h (gen (image st))) /\
       i < ran (current_stream st) /\
       issued (current_stream st) !! i = Some (Kernels (gen (image st)))).
Proof.
  eexists. split; [vm_compute; reflexivity|].
  refine (read_sees_complete_frame (X := tiny) tt [[[7; 7; 7; 7]]]%Z 75 0%Q
            _ 0 _ _ _ _).
  - exists second_read_trace. vm_compute. reflexivity.
  - vm_compute. reflexivity.
  - reflexivity.
Defined.

Lemma settings_never_change_witness :
  exists st : state tiny,
    run sent_trace tiny_init = Some st /\
    exposure st = 1.0%Q /\ offset st = 0.0%Q /\ jpeg_quality st = 75%Z /\
    forall b, render st b = flip0 (pointwise quantize (forward tiny b)).
Proof.
  eexists. split; [vm_compute; reflexivity|].
  apply (settings_never_change (X := tiny) tt [[[7; 7; 7; 7]]]%Z 75 0%Q).
  exists sent_trace. vm_compute. reflexivity.
Defined.

Lemma published_frame_content_witness :
  exists st : state tiny,
    run copied_trace tiny_init = Some st /\
    ((gen (image st) = 0 /\ pixels (image st) = [[[7; 7; 7; 7]]]%Z) \/
     (0 < gen (image st) /\
      pixels (image st)
      = flip0 (pointwise quantize (forward tiny (to_batch tiny tt))))).
Proof.
  eexists. split; [vm_compute; reflexivity|].
  apply (published_frame_content (X := tiny) tt [[[7; 7; 7; 7]]]%Z 75 0%Q).
  exists copied_trace. vm_compute. reflexivity.
Defined.

Lemma sent_payloads_witness :
  exists st : state tiny,
    run sent_trace tiny_init = Some st /\
    ([102%Z] = jpeg_encode tiny [[[7; 7; 7; 7]]]%Z 75 \/
     [102%Z] = jpeg_encode tiny (rendered_frame (X := tiny) tt) 75).
Proof.
  eexists. split; [vm_compute; reflexivity|].
  refine (sent_payloads (X := tiny) tt [[[7; 7; 7; 7]]]%Z 75 0%Q _ 0 [102%Z] _ _).
  - exists sent_trace. vm_compute. reflexivity.
  - left. vm_compute. reflexivity.
Defined.

Lemma device_queues_witness :
  exists st : state tiny,
    run stalled_trace tiny_init = Some st /\
    issued (copy_stream st)
    = concat (map frame_ops (seq 1 (gen (image st))))
      ++ (if render_waited (r_pc (renderer st))
          then [Wait_event (rendered st)] else []).
Proof.
  eexists. split; [vm_compute; reflexivity|].
  refine (proj1 (proj2 (device_queues (X := tiny) tt [[[7; 7; 7; 7]]]%Z
                          75 0%Q _ _))).
  exists stalled_trace. vm_compute. reflexivity.
Defined.

Lemma no_deadlock_witness :
  exists st : state tiny,
    run stalled_trace tiny_init = Some st /\
    (step (Render_step 3) st <> None \/
     step Gpu_current st <> None \/
     step Gpu_copy st <> None \/
     exists c, image_lock st = Some (Send_conn c) /\
               step (Send_step c 3) st <> None).
Proof.
  eexists. split; [vm_compute; reflexivity|].
  apply (no_deadlock (X := tiny) tt [[[7; 7; 7; 7]]]%Z 75 0%Q).
  exists stalled_trace. vm_compute. reflexivity.
Defined.

Lemma image_lock_mutual_exclusion_witness :
  exists st : state tiny,
    run stalled_trace tiny_init = Some st /\
    forall c, image_lock st = Some (Send_conn c) -> senders st !! c <> None.
Proof.
  eexists. split; [vm_compute; reflexivity|].
  refine (proj2 (proj2 (image_lock_mutual_exclusion (X := tiny) tt
                          [[[7; 7; 7; 7]]]%Z 75 0%Q _ _))).
  exists stalled_trace. vm_compute. reflexivity.
Defined.

Lemma send_loop_frame_witness :
  exists st' : state tiny,
    step (Send_accept 0 1) tiny_init = Some st' /\
    image st' = image tiny_init /\ renderer st' = renderer tiny_init.
Proof.
  eexists. split; [vm_compute; reflexivity|].
  destruct (send_loop_frame (X := tiny) 0 (Send_accept 0 1) tiny_init _
              (or_introl (ex_intro _ 1%Q eq_refl)) eq_refl)
    as (_ & Hi & _ & _ & _ & _ & _ & _ & Hr & _).
  split; [exact Hi|exact Hr].
Defined.


Lemma generation_advances_by_one_witness :
  exists st st' : state tiny,
    run before_publish_trace tiny_init = Some st /\
    step (Render_step 1) st = Some st' /\
    (image st' = image st \/
     (r_pc (renderer st) = RL_publish /\
      (exists t, Render_step 1 = Render_step t) /\
      gen (image st') = S (gen (image st)))).
Proof.
  eexists. eexists. split; [vm_compute; reflexivity|].
  split; [vm_compute; reflexivity|].
  refine (generation_advances_by_one (X := tiny) tt [[[7; 7; 7; 7]]]%Z 75 0%Q
            _ (Render_step 1) _ _ _).
  - exists before_publish_trace. vm_compute. reflexivity.
  - vm_compute. reflexivity.
Defined.

Lemma render_loop_frame_witness :
  exists st' : state tiny,
    step (Render_step 1) tiny_init = Some st' /\
    senders st' = senders tiny_init /\ sent st' = sent tiny_init.
Proof.
  eexists. split; [vm_compute; reflexivity|].
  destruct (render_loop_frame (X := tiny) 1 tiny_init _ eq_refl)
    as (_ & _ & _ & _ & Hs & _ & _ & Ht).
  split; [exact Hs|exact Ht].
Defined.


End TinyServer.
